(** * mc3ds.convert: index repair, chunk decoding and block-table parsing

    A shallow embedding of [src/mc3ds/convert.py].  Python integers are [Z],
    [bytes] objects are lists of integers, dictionaries are stdpp [gmap]s,
    and a Python exception is an explicit alternative of the result type. *)

From Stdlib Require Import ZArith Lia Ascii String DecimalString DecimalZ.
From stdpp Require Import gmap strings list fin_maps.

Local Open Scope Z_scope.

(** ** Exceptions and results *)

Inductive Exception :=
  | AttributeError
  | IndexError
  | KeyError
  | ValueError
  | FileNotFoundError
  | OutOfBoundsCoordinates.

Inductive Result (A : Type) :=
  | Ok (a : A)
  | Raise (e : Exception).
Arguments Ok {A} a.
Arguments Raise {A} e.

#[global] Instance Result_ret : MRet Result := fun _ a => Ok a.

#[global] Instance Result_bind : MBind Result := fun _ _ k r =>
  match r with
  | Ok a => k a
  | Raise e => Raise e
  end.

(** [o] when it holds a value, exception [e] otherwise. *)
Definition or_raise {A} (e : Exception) (o : option A) : Result A :=
  match o with
  | Some a => Ok a
  | None => Raise e
  end.

(** [l[i]] for a Python sequence; a negative index counts from the end. *)
Definition py_index {A} (l : list A) (i : Z) : Result A :=
  let j := if i <? 0 then i + Z.of_nat (length l) else i in
  if j <? 0 then Raise IndexError
  else or_raise IndexError (l !! Z.to_nat j).

(** [enumerate(l)]. *)
Fixpoint enumerate_from {A} (i : Z) (l : list A) : list (Z * A) :=
  match l with
  | [] => []
  | a :: l' => (i, a) :: enumerate_from (i + 1) l'
  end.

Definition enumerate {A} (l : list A) : list (Z * A) := enumerate_from 0 l.

(** ** Positions and the index *)

(** The key of [world.recovered] and [world.entries]:
    (chunk x, chunk z, dimension). *)
Abbreviation Position := (Z * Z * Z)%type.

Definition OVERWORLD : Z := 0.
Definition NETHER : Z := 1.
Definition END : Z := 2.

(** What [fix_cdb_index] uses of the modules [.parser] and [.classes]: the
    position structure of an index entry with its conversion to a key, the
    parameter block of a record header, and the codec of the index file. *)
Class Parser := {
  RawPosition : Type;
  Parameters : Type;
  parse_position : RawPosition -> Position;
}.

Section Index.
Context `{Parser}.

(** One entry of [index.entries], with the attributes the repair touches. *)
Record IndexEntry := {
  position : RawPosition;
  slot : Z;
  subfile : Z;
  parameters : Parameters;
}.

(** [world.recovered], and [world.cdb[slot][subfile]._header.parameters] as
    a function of [slot] and [subfile]: the parameters, or the exception the
    expression raises. *)
Record World := {
  recovered : gmap Position (list (Z * Z));
  cdb : Z -> Z -> Result Parameters;
}.

(** The codec of the index file: [parser.Index(handle).entries], or the
    exception the parser raises, and [index.dumps()]. *)
Class IndexCodec := {
  Index_parse : list Z -> Result (list IndexEntry);
  Index_dumps : list IndexEntry -> list Z;
}.

Context `{IndexCodec}.

(** Files by path. *)
Abbreviation FileSystem := (gmap string (list Z)).

(** Truth value of an integer, as in [if chunks_fixed:]. *)
Definition truthy (n : Z) : bool := negb (n =? 0).

(** The body of the [for entry_index, entry in enumerate(index.entries)] loop
    for one entry: the entry and [chunks_fixed] after the iteration. *)
Definition fix_entry (world : World) (entry : IndexEntry) (chunks_fixed : Z)
  : Result (IndexEntry * Z) :=
  match recovered world !! parse_position (position entry) with
  | None => Ok (entry, chunks_fixed)
  | Some chunk_copies =>
      '(slot', subfile') ← py_index chunk_copies 0;
      new_chunk_parameters ← cdb world slot' subfile';
      Ok ({| position := position entry;
             slot := slot';
             subfile := subfile';
             parameters := new_chunk_parameters |}, chunks_fixed + 1)
  end.

(** The loop: the entries and [chunks_fixed] after it. *)
Fixpoint fix_entries (world : World) (entries : list IndexEntry)
    (chunks_fixed : Z) : Result (list IndexEntry * Z) :=
  match entries with
  | [] => Ok ([], chunks_fixed)
  | entry :: rest =>
      '(entry', chunks_fixed') ← fix_entry world entry chunks_fixed;
      '(rest', n) ← fix_entries world rest chunks_fixed';
      Ok (entry' :: rest', n)
  end.

(** [fix_cdb_index(path, world)]: the count returned and the files after the
    call.  An exception leaves the files as they were, the only write being
    the last statement. *)
Definition fix_cdb_index (fs : FileSystem) (path : string) (world : World)
  : Result (Z * FileSystem) :=
  index_bytes ← or_raise FileNotFoundError (fs !! path);
  index ← Index_parse index_bytes;
  '(index', chunks_fixed) ← fix_entries world index 0;
  if truthy chunks_fixed
  then Ok (chunks_fixed, <[path := Index_dumps index']> fs)
  else Ok (chunks_fixed, fs).

End Index.

(** ** Blocks and chunks of the destination format *)

(** [anvil.Block(namespace, block_id, properties)]. *)
Record Block := {
  namespace : string;
  name : string;
  properties : gmap string string;
}.

(** [anvil.EmptyChunk(x, z)]: the blocks set so far, by (x, y, z). *)
Record EmptyChunk := {
  chunk_x : Z;
  chunk_z : Z;
  cells : gmap (Z * Z * Z) Block;
}.

(** One line of [sys.stderr]: the three values the message interpolates. *)
Record Diagnostic := {
  unknown_block : Z * Z;
  at_cell : Z * Z * Z;
  in_dimension : Z;
}.

(** What [place_blocks] writes to: [self.chunk] and [sys.stderr]. *)
Record PlaceState := {
  chunk : EmptyChunk;
  stderr : list Diagnostic;
}.

(** Statements over a state [S] that may raise; the state reached when an
    exception is raised is kept. *)
Definition Stateful (S A : Type) : Type := S -> Result A * S.

#[global] Instance Stateful_ret {S} : MRet (Stateful S) := fun _ a s => (Ok a, s).

#[global] Instance Stateful_bind {S} : MBind (Stateful S) := fun _ _ k m s =>
  match m s with
  | (Ok a, s') => k a s'
  | (Raise e, s') => (Raise e, s')
  end.

Definition lift {S A} (r : Result A) : Stateful S A := fun s => (r, s).

(** [for a in l: body(a)]. *)
Fixpoint for_each {S A} (l : list A) (body : A -> Stateful S unit)
  : Stateful S unit :=
  match l with
  | [] => mret tt
  | a :: l' => body a ≫= fun _ => for_each l' body
  end.

(** [range(n)]. *)
Definition range (n : Z) : list Z := seqZ 0 n.

(** [chunk.set_block(block, x, y, z)] of the anvil library: coordinates out
    of the chunk raise, otherwise the cell is overwritten. *)
Definition set_block (block : Block) (x y z : Z) : Stateful PlaceState unit :=
  fun s =>
    if (x <? 0) || (15 <? x) || (z <? 0) || (15 <? z) || (y <? 0) || (255 <? y)
    then (Raise OutOfBoundsCoordinates, s)
    else (Ok tt,
          {| chunk := {| chunk_x := chunk_x (chunk s);
                         chunk_z := chunk_z (chunk s);
                         cells := <[(x, y, z) := block]> (cells (chunk s)) |};
             stderr := stderr s |}).

(** [print(..., file=sys.stderr)]. *)
Definition print_stderr (d : Diagnostic) : Stateful PlaceState unit :=
  fun s => (Ok tt, {| chunk := chunk s; stderr := stderr s ++ [d] |}).

(** ** ChunkConverter *)

(** [classes.Entry], of which the conversion reads [blocks]: one byte
    sequence per subchunk, the block ids followed by the packed data. *)
Module Entry.
Record t := { blocks : list (list Z) }.
End Entry.

Record ChunkConverter := {
  region_x : Z;
  region_z : Z;
  dimension : Z;
  entry : option Entry.t;
  blocks : gmap (Z * Z) Block;
  corrupted : bool;
}.

(** [ChunkConverter.__init__]. *)
Definition ChunkConverter_init (position : Position) (entry : option Entry.t)
    (blocks : gmap (Z * Z) Block) (corrupted : bool) : ChunkConverter :=
  let '(region_x, region_z, dimension) := position in
  {| region_x := region_x; region_z := region_z; dimension := dimension;
     entry := entry; blocks := blocks; corrupted := corrupted |}.

Definition corrupted_block : Block :=
  {| namespace := "minecraft"; name := "glass"; properties := ∅ |}.

(** The block substituted for an unknown block id. *)
Definition unknown_block_substitute : Block :=
  {| namespace := "minecraft"; name := "netherite_block"; properties := ∅ |}.

(** The (x, y, z) of the cell [position] of subchunk [subchunk_y]. *)
Definition cell_coordinates (subchunk_y position : Z) : Z * Z * Z :=
  let y_offset := subchunk_y * 16 in
  let y := Z.land position 0xF + y_offset in
  let z := Z.shiftr (Z.land position 0xF0) 4 in
  let x := Z.shiftr position 8 in
  (x, y, z).

(** The data value of the cell [position]: "extract the nibble from the
    byte". *)
Definition data_nibble (blocks : list Z) (position : Z) : Result Z :=
  block_byte ← py_index blocks (0x1000 + position `div` 2);
  if position `mod` 2 =? 0
  then Ok (Z.land block_byte 0xF)
  else Ok (Z.shiftr block_byte 4).

(** The [try: ... except KeyError: ...] around the table lookup. *)
Definition translate (self : ChunkConverter) (block_id : Z * Z)
    (cell : Z * Z * Z) : Stateful PlaceState Block :=
  match blocks self !! block_id with
  | Some block => mret block
  | None =>
      print_stderr {| unknown_block := block_id; at_cell := cell;
                      in_dimension := dimension self |} ≫= fun _ =>
      mret unknown_block_substitute
  end.

(** The body of the inner loop of the [else] branch. *)
Definition place_cell (self : ChunkConverter) (subchunk_y : Z)
    (blocks : list Z) (position block : Z) : Stateful PlaceState unit :=
  let '(x, y, z) := cell_coordinates subchunk_y position in
  block_data ← lift (data_nibble blocks position);
  let block_id := (block, block_data) in
  if bool_decide (block_id ≠ (0, 0))
  then block' ← translate self block_id (x, y, z); set_block block' x y z
  else mret tt.

(** [ChunkConverter.place_blocks], run with [sys.stderr] holding [err]. *)
Definition place_blocks (self : ChunkConverter) (err : list Diagnostic)
  : Result unit * PlaceState :=
  let start :=
    {| chunk := {| chunk_x := region_x self; chunk_z := region_z self;
                   cells := ∅ |};
       stderr := err |} in
  if false && corrupted self
  then
    for_each (range 8) (fun subchunk_y =>
      for_each (range 0x1000) (fun position =>
        let '(x, y, z) := cell_coordinates subchunk_y position in
        set_block corrupted_block x y z)) start
  else
    match entry self with
    | None => (Raise AttributeError, start)
    | Some entry =>
        for_each (enumerate (Entry.blocks entry)) (fun '(subchunk_y, blocks) =>
          for_each (enumerate (take (Z.to_nat 0x1000) blocks))
            (fun '(position, block) =>
               place_cell self subchunk_y blocks position block)) start
    end.

(** [ChunkConverter.region_position]. *)
Definition region_position (self : ChunkConverter) : Z * Z * Z :=
  (region_x self `div` 32, region_z self `div` 32, dimension self).

(** A value of [world.entries]: [True] for a chunk known to be corrupted. *)
Inductive WorldEntry :=
  | IsTrue
  | AnEntry (entry : Entry.t).

(** The converters [convert] builds from [world.entries.items()]. *)
Definition entry_converters (entries : list (Position * WorldEntry))
    (blocks : gmap (Z * Z) Block) : list ChunkConverter :=
  (fun '(position, entry) =>
     match entry with
     | IsTrue => ChunkConverter_init position None blocks true
     | AnEntry entry => ChunkConverter_init position (Some entry) blocks false
     end) <$> entries.

(** [convert_chunk] of [convert]. *)
Definition convert_chunk (chunk_converter : ChunkConverter)
    (err : list Diagnostic) : Result (Z * Z * Z * EmptyChunk) * PlaceState :=
  match place_blocks chunk_converter err with
  | (Ok _, s) => (Ok (region_position chunk_converter, chunk s), s)
  | (Raise e, s) => (Raise e, s)
  end.

(** The cells the two loops of [place_blocks] go through, in order. *)
Definition visited_cells (entry : Entry.t) : list (Z * Z * Z) :=
  '(subchunk_y, blocks) ← enumerate (Entry.blocks entry);
  (fun '(position, _) => cell_coordinates subchunk_y position)
    <$> enumerate (take (Z.to_nat 0x1000) blocks).

(** What the two loops of [place_blocks] iterate over, in order: the number
    and the bytes of the subchunk, the position and the byte at it. *)
Definition traversal (entry : Entry.t) : list (Z * list Z * Z * Z) :=
  '(subchunk_y, blocks) ← enumerate (Entry.blocks entry);
  (fun '(position, block) => (subchunk_y, blocks, position, block))
    <$> enumerate (take (Z.to_nat 0x1000) blocks).

(** ** RegionConverter *)

(** [f"{n:d}"]: the decimal digits of [n], after a minus sign when it is
    negative. *)
Definition format_d (n : Z) : string := NilZero.string_of_int (Z.to_int n).

(** A [pathlib.Path], by its components. *)
Abbreviation Path := (list string).

(** [anvil.EmptyRegion(x, z)]: its 32 x 32 chunks by slot. *)
Module EmptyRegion.
Record t := {
  x : Z;
  z : Z;
  chunks : gmap Z EmptyChunk;
}.

(** [region.add_chunk(chunk)] of the anvil library: a chunk outside the
    region raises, otherwise it takes its slot, whatever was there. *)
Definition add_chunk (region : t) (chunk : EmptyChunk) : Result t :=
  if (chunk_x chunk `div` 32 =? x region) &&
     (chunk_z chunk `div` 32 =? z region)
  then Ok {| x := x region; z := z region;
             chunks := <[chunk_z chunk `mod` 32 * 32 + chunk_x chunk `mod` 32
                         := chunk]> (chunks region) |}
  else Raise OutOfBoundsCoordinates.
End EmptyRegion.

Module RegionConverter.
Record t := {
  region_x : Z;
  region_z : Z;
  dimension : Z;
  world_directory : Path;
  region_file : Path;
  region : EmptyRegion.t;
}.

(** [RegionConverter.__init__]. *)
Definition init (world_directory : Path) (position : Position) : Result t :=
  let '(region_x, region_z, dimension) := position in
  dimension_path ←
    (if dimension =? OVERWORLD then Ok world_directory
     else if dimension =? NETHER then Ok (world_directory ++ ["DIM-1"])
     else if dimension =? END then Ok (world_directory ++ ["DIM1"])
     else Raise ValueError);
  Ok {| region_x := region_x; region_z := region_z; dimension := dimension;
        world_directory := world_directory;
        region_file :=
          dimension_path ++
            ["region";
             "r." +:+ format_d region_x +:+ "." +:+ format_d region_z
               +:+ ".mca"];
        region := {| EmptyRegion.x := region_x; EmptyRegion.z := region_z;
                     EmptyRegion.chunks := ∅ |} |}.

(** [RegionConverter.add_chunk]. *)
Definition add_chunk (self : t) (chunk : EmptyChunk) : Result t :=
  region' ← EmptyRegion.add_chunk (region self) chunk;
  Ok {| region_x := region_x self; region_z := region_z self;
        dimension := dimension self;
        world_directory := world_directory self;
        region_file := region_file self;
        region := region' |}.
End RegionConverter.

(** ** The conversion loop of convert *)

(** What the loop over the converters writes to: the dictionary [regions]
    and [sys.stderr]. *)
Record ConvertState := {
  regions : gmap Position RegionConverter.t;
  convert_stderr : list Diagnostic;
}.

(** The body of [for chunk_converter in tqdm(chunk_converters, ...)]. *)
Definition convert_one (world_out : Path) (chunk_converter : ChunkConverter)
  : Stateful ConvertState unit :=
  fun st =>
    match convert_chunk chunk_converter (convert_stderr st) with
    | (Raise e, s) =>
        (Raise e, {| regions := regions st; convert_stderr := stderr s |})
    | (Ok (region_position, chunk), s) =>
        let found :=
          match regions st !! region_position with
          | Some region_converter => Ok (region_converter, regions st)
          | None =>
              region_converter ← RegionConverter.init world_out region_position;
              Ok (region_converter,
                  <[region_position := region_converter]> (regions st))
          end in
        match found with
        | Raise e =>
            (Raise e, {| regions := regions st; convert_stderr := stderr s |})
        | Ok (region_converter, regions') =>
            match RegionConverter.add_chunk region_converter chunk with
            | Raise e =>
                (Raise e, {| regions := regions'; convert_stderr := stderr s |})
            | Ok region_converter' =>
                (Ok tt,
                 {| regions := <[region_position := region_converter']> regions';
                    convert_stderr := stderr s |})
            end
        end
    end.

(** The loop, from the empty dictionary [regions = {}]. *)
Definition convert_chunks (world_out : Path)
    (chunk_converters : list ChunkConverter) (err : list Diagnostic)
  : Result unit * ConvertState :=
  for_each chunk_converters (convert_one world_out)
    {| regions := ∅; convert_stderr := err |}.

(** ** parse_block_json *)

(** Strings are sequences of 8-bit characters, so the table is taken to be
    ASCII. *)

(** [s.split(sep)] for a separator of one character. *)
Fixpoint split (sep : ascii) (s : string) : list string :=
  match s with
  | EmptyString => [EmptyString]
  | String c s' =>
      if Ascii.eqb c sep then EmptyString :: split sep s'
      else match split sep s' with
           | part :: parts => String c part :: parts
           | [] => [String c EmptyString]
           end
  end.

(** [a, b = parts]. *)
Definition unpack2 {A} (parts : list A) : Result (A * A) :=
  match parts with
  | [a; b] => Ok (a, b)
  | _ => Raise ValueError
  end.

Definition is_digit (c : ascii) : bool :=
  let n := nat_of_ascii c in (48 <=? n)%nat && (n <=? 57)%nat.

Definition digit_value (c : ascii) : Z := Z.of_nat (nat_of_ascii c) - 48.

(** The ASCII characters [int] strips: tab to carriage return, the four
    separators 0x1C to 0x1F, and the space. *)
Definition is_space (c : ascii) : bool :=
  let n := nat_of_ascii c in
  ((9 <=? n)%nat && (n <=? 13)%nat) || ((28 <=? n)%nat && (n <=? 32)%nat).

Fixpoint lstrip (s : string) : string :=
  match s with
  | String c s' => if is_space c then lstrip s' else s
  | EmptyString => s
  end.

Fixpoint all_space (s : string) : bool :=
  match s with
  | String c s' => is_space c && all_space s'
  | EmptyString => true
  end.

(** The digits after the first one: a digit, an underscore followed by a
    digit, or only spaces up to the end. *)
Fixpoint int_digits (acc : Z) (s : string) : Result Z :=
  match s with
  | EmptyString => Ok acc
  | String c s' =>
      if is_digit c then int_digits (10 * acc + digit_value c) s'
      else if Ascii.eqb c "_" then
        match s' with
        | String d s'' =>
            if is_digit d then int_digits (10 * acc + digit_value d) s''
            else Raise ValueError
        | EmptyString => Raise ValueError
        end
      else if all_space s then Ok acc
      else Raise ValueError
  end.

(** [int(s)] in base ten: optional spaces, an optional sign, digits that
    single underscores may separate, optional spaces.  The interpreter's
    limit on the number of digits is left out. *)
Definition int (s : string) : Result Z :=
  let s := lstrip s in
  let '(sign, s) :=
    match s with
    | String "+" s' => (1, s')
    | String "-" s' => (-1, s')
    | _ => (1, s)
    end in
  match s with
  | String c s' =>
      if is_digit c then n ← int_digits (digit_value c) s'; Ok (sign * n)
      else Raise ValueError
  | EmptyString => Raise ValueError
  end.

Definition is_bracket (c : ascii) : bool := Ascii.eqb c "[" || Ascii.eqb c "]".

(** The longest prefix without a bracket, and what follows it. *)
Fixpoint span_no_bracket (s : string) : string * string :=
  match s with
  | EmptyString => (EmptyString, EmptyString)
  | String c s' =>
      if is_bracket c then (EmptyString, s)
      else let '(run, rest) := span_no_bracket s' in (String c run, rest)
  end.

(** The pattern compiled into [block_json]. *)
Definition block_json_pattern : string := "^([^\[\]]+)(?:\[([^\[\]]*)\])?$".

(** [block_json.match(new)]: groups 1 and 2 of the match, group 2
    being [None] when the bracketed part is absent.  Both character classes
    are greedy and exclude exactly the brackets, so group 1 is the longest
    bracket-free prefix and group 2 the longest bracket-free run after the
    opening bracket; a shorter group 1 is followed by a character that is
    neither a bracket nor the end.  [$] also matches before a newline that
    ends the string, which can only happen after the closing bracket. *)
Definition block_json_match (new : string) : option (string * option string) :=
  match span_no_bracket new with
  | (EmptyString, _) => None
  | (group1, EmptyString) => Some (group1, None)
  | (group1, String "[" rest) =>
      match span_no_bracket rest with
      | (group2, String "]" EmptyString) => Some (group1, Some group2)
      | (group2, String "]" (String "010" EmptyString)) =>
          Some (group1, Some group2)
      | _ => None
      end
  | _ => None
  end.

(** [dict(item.split("=") for item in raw_nbt_data.split(","))]. *)
Fixpoint dict_of_items (items : list string) (d : gmap string string)
  : Result (gmap string string) :=
  match items with
  | [] => Ok d
  | item :: items' =>
      '(key, value) ← unpack2 (split "=" item);
      dict_of_items items' (<[key := value]> d)
  end.

(** The body of the loop of [parse_block_json] for one item of the table. *)
Definition parse_block (numerical_id new : string) : Result (Z * Z * Block) :=
  '(block_str, data_str) ← unpack2 (split ":" numerical_id);
  block ← int block_str;
  data ← int data_str;
  let block_id := (block, data) in
  parsed ← or_raise ValueError (block_json_match new);
  let '(name, raw_nbt_data) := parsed in
  nbt_data ←
    match raw_nbt_data with
    | Some (String c s) => dict_of_items (split "," (String c s)) ∅
    | _ => Ok ∅
    end;
  '(namespace, block) ← unpack2 (split ":" name);
  Ok (block_id,
      {| namespace := namespace; name := block; properties := nbt_data |}).

Fixpoint parse_blocks (items : list (string * string))
    (blocks : gmap (Z * Z) Block) : Result (gmap (Z * Z) Block) :=
  match items with
  | [] => Ok blocks
  | (numerical_id, new) :: items' =>
      '(block_id, block) ← parse_block numerical_id new;
      parse_blocks items' (<[block_id := block]> blocks)
  end.

(** [parse_block_json(raw_blocks)], [raw_blocks["blocks"].items()] being the
    list given. *)
Definition parse_block_json (raw_blocks : list (string * string))
  : Result (gmap (Z * Z) Block) :=
  parse_blocks raw_blocks ∅.

(** ** A concrete index format, for the examples *)

(** Positions stored as their key, one integer of parameters, and six
    integers per entry in the file. *)
Definition example_parser : Parser :=
  {| RawPosition := Position; Parameters := Z; parse_position := fun p => p |}.

Fixpoint example_dumps (entries : list (@IndexEntry example_parser))
  : list Z :=
  match entries with
  | [] => []
  | e :: rest =>
      let '(x, z, d) := position e in
      x :: z :: d :: slot e :: subfile e :: parameters e :: example_dumps rest
  end.

Fixpoint example_parse (data : list Z)
  : Result (list (@IndexEntry example_parser)) :=
  match data with
  | [] => Ok []
  | x :: z :: d :: s :: f :: p :: rest =>
      entries ← example_parse rest;
      Ok ({| position := (x, z, d) : @RawPosition example_parser;
             slot := s; subfile := f; parameters := p |} :: entries)
  | _ => Raise ValueError
  end.

Definition example_codec : @IndexCodec example_parser :=
  {| Index_parse := example_parse; Index_dumps := example_dumps |}.

(** The index entry of the chunk (5, 5) of the overworld, pointing at
    subfile 1 of slot 0 with parameters 7. *)
Definition example_entry : @IndexEntry example_parser :=
  {| position := (5, 5, OVERWORLD) : @RawPosition example_parser;
     slot := 0; subfile := 1; parameters := 7 |}.

(** The same entry once it points at subfile 9 of slot 2, whose header
    carries the parameters 42. *)
Definition example_entry_fixed : @IndexEntry example_parser :=
  {| position := (5, 5, OVERWORLD) : @RawPosition example_parser;
     slot := 2; subfile := 9; parameters := 42 |}.

(** A world in which one copy of that chunk was found, at subfile 9 of
    slot 2. *)
Definition example_world : @World example_parser :=
  {| recovered := {[ (5, 5, OVERWORLD) := [(2, 9)] ]};
     cdb := fun slot subfile =>
       if (slot =? 2) && (subfile =? 9)
       then Ok (42 : @Parameters example_parser) else Raise KeyError |}.

Definition example_path : string := "newindex.cdb".

Definition example_files (index : list (@IndexEntry example_parser))
  : gmap string (list Z) :=
  {[ example_path := example_dumps index ]}.

(** ** Chunks, for the examples *)

(** A subchunk of 4096 cells of block id 0 whose first data byte is
    [byte]. *)
Definition example_subchunk (byte : Z) : list Z :=
  replicate (Z.to_nat 0x1000) 0 ++ byte :: replicate (Z.to_nat 0x7FF) 0.

(** An entry of 8 subchunks with every byte 0. *)
Definition example_air_entry : Entry.t :=
  {| Entry.blocks := replicate 8 (replicate (Z.to_nat 0x1800) 0) |}.

(** A converter for that entry with an empty block table. *)
Definition example_converter : ChunkConverter :=
  ChunkConverter_init (5, 5, OVERWORLD) (Some example_air_entry) ∅ false.

Definition example_state : PlaceState :=
  {| chunk := {| chunk_x := 5; chunk_z := 5; cells := ∅ |}; stderr := [] |}.

(** The block table of the two items 1:0 and 5:2. *)
Definition example_table : gmap (Z * Z) Block :=
  {[ (1, 0) := {| namespace := "minecraft"; name := "stone";
                  properties := ∅ |};
     (5, 2) := {| namespace := "minecraft"; name := "wood";
                  properties := {[ "variant" := "birch" ]} |} ]}.

(** The same world with a second, later copy at subfile 1 of slot 3. *)
Definition example_world_two_copies : @World example_parser :=
  {| recovered := {[ (5, 5, OVERWORLD) := [(2, 9); (3, 1)] ]};
     cdb := cdb example_world |}.

(** A world whose scan listed the chunk without any copy. *)
Definition example_world_no_copy : @World example_parser :=
  {| recovered := {[ (5, 5, OVERWORLD) := [] ]};
     cdb := cdb example_world |}.

(** The index entry of the chunk (6, 5) of the overworld. *)
Definition example_entry_other : @IndexEntry example_parser :=
  {| position := (6, 5, OVERWORLD) : @RawPosition example_parser;
     slot := 0; subfile := 2; parameters := 8 |}.

(** A world whose only copy of the chunk is at subfile 7 of slot 7, which
    cannot be read. *)
Definition example_world_unreadable : @World example_parser :=
  {| recovered := {[ (5, 5, OVERWORLD) := [(7, 7)] ]};
     cdb := cdb example_world |}.

(** A subchunk whose first cell has block id 1 and data value 0, every
    other byte being 0, and an entry made of it. *)
Definition example_stone_subchunk : list Z :=
  1 :: replicate (Z.to_nat 0x17FF) 0.

Definition example_stone_entry : Entry.t :=
  {| Entry.blocks := [example_stone_subchunk] |}.

(** Converters for that entry, with the table of the two items and with an
    empty table. *)
Definition example_stone_converter : ChunkConverter :=
  ChunkConverter_init (5, 5, OVERWORLD) (Some example_stone_entry)
    example_table false.

Definition example_unknown_converter : ChunkConverter :=
  ChunkConverter_init (5, 5, OVERWORLD) (Some example_stone_entry) ∅ false.

(** An entry whose subchunk has its 4096 block ids and only 16 data
    bytes, and a converter for it. *)
Definition example_short_entry : Entry.t :=
  {| Entry.blocks := [replicate (Z.to_nat 0x1010) 0] |}.

Definition example_short_converter : ChunkConverter :=
  ChunkConverter_init (5, 5, OVERWORLD) (Some example_short_entry) ∅ false.

(** A converter for the chunk next to it, (6, 5) of the overworld. *)
Definition example_neighbour_converter : ChunkConverter :=
  ChunkConverter_init (6, 5, OVERWORLD) (Some example_stone_entry) ∅ false.

(** * Properties *)

(** ** Index repair *)

(** Runs the binds and lookups of the result monad that are decided. *)
Ltac run_result :=
  unfold mbind, mret, Result_bind, Result_ret, or_raise in *; cbn in *.

Lemma py_index_first {A} (a : A) (l : list A) : py_index (a :: l) 0 = Ok a.
Proof. reflexivity. Qed.

Lemma py_index_empty {A} (i : Z) : py_index (@nil A) i = Raise IndexError.
Proof.
  unfold py_index, or_raise. rewrite lookup_nil. by repeat case_match.
Qed.

Section IndexRepair.
Context `{P : Parser} `{C : !IndexCodec}.
Implicit Types (world : World) (e : IndexEntry) (index : list IndexEntry).

(** The entry once it points at the copy [(s, f)] whose header holds [p]. *)
Local Abbreviation patched e s f p :=
  {| position := position e; slot := s; subfile := f; parameters := p |}.

Lemma fix_entry_absent world e n :
  recovered world !! parse_position (position e) = None ->
  fix_entry world e n = Ok (e, n).
Proof. unfold fix_entry. by intros ->. Qed.

Lemma fix_entry_present world e n s f rest p :
  recovered world !! parse_position (position e) = Some ((s, f) :: rest) ->
  cdb world s f = Ok p ->
  fix_entry world e n = Ok (patched e s f p, n + 1).
Proof.
  unfold fix_entry. intros -> Hcdb. rewrite py_index_first. run_result.
  by rewrite Hcdb.
Qed.

(** Whatever [fix_entry] returns, it kept the position and counted at most
    the entry at hand. *)
Lemma fix_entry_inv world e n e' m :
  fix_entry world e n = Ok (e', m) ->
  position e' = position e /\
  match recovered world !! parse_position (position e) with
  | None => e' = e /\ m = n
  | Some copies =>
      exists s f rest, copies = (s, f) :: rest /\ m = n + 1 /\
        cdb world s f = Ok (parameters e') /\ slot e' = s /\ subfile e' = f
  end.
Proof.
  unfold fix_entry.
  destruct (recovered world !! parse_position (position e)) as [copies|].
  - destruct copies as [|[s f] rest].
    { by rewrite py_index_empty. }
    rewrite py_index_first. run_result.
    destruct (cdb world s f) as [p|] eqn:Hcdb; [|discriminate].
    intros [= <- <-]. cbn. split; [done|]. by exists s, f, rest.
  - by intros [= <- <-].
Qed.

(** The number of entries of the index whose position was recovered. *)
Local Abbreviation recovered_entries world index :=
  (Z.of_nat (length (filter
     (fun e => is_Some (recovered world !! parse_position (position e)))
     index))).

Lemma fix_entries_total world index : forall n,
  (forall e copies, e ∈ index ->
     recovered world !! parse_position (position e) = Some copies ->
     exists s f rest p, copies = (s, f) :: rest /\ cdb world s f = Ok p) ->
  exists index',
    fix_entries world index n = Ok (index', n + recovered_entries world index)
    /\ Forall2 (fun e e' =>
         position e' = position e /\
         match recovered world !! parse_position (position e) with
         | None => e' = e
         | Some copies =>
             exists s f rest, copies = (s, f) :: rest /\
               slot e' = s /\ subfile e' = f /\
               cdb world s f = Ok (parameters e')
         end) index index'.
Proof.
  induction index as [|e index IH]; intros n Hok.
  - exists []. cbn. split; [f_equal; f_equal; lia | constructor].
  - rewrite filter_cons.
    destruct (recovered world !! parse_position (position e))
      as [copies|] eqn:Hrec.
    + destruct (Hok e copies) as (s & f & rest & p & -> & Hp);
        [left | done |].
      destruct (IH (n + 1)) as (index' & Hrun & Hrel).
      { intros e0 c0 Hin. apply Hok. by right. }
      exists (patched e s f p :: index'). cbn [fix_entries].
      rewrite (fix_entry_present _ _ _ _ _ _ _ Hrec Hp). cbn.
      rewrite Hrun. cbn. split.
      * rewrite decide_True by eauto. cbn [length].
        f_equal. f_equal. lia.
      * constructor; [|done]. cbn. split; [done|]. rewrite Hrec.
        by exists s, f, rest.
    + destruct (IH n) as (index' & Hrun & Hrel).
      { intros e0 c0 Hin. apply Hok. by right. }
      exists (e :: index'). cbn [fix_entries].
      rewrite (fix_entry_absent _ _ _ Hrec). cbn. rewrite Hrun. cbn. split.
      * by rewrite decide_False by apply is_Some_None.
      * constructor; [|done]. split; [done|]. by rewrite Hrec.
Qed.

(** The count only moves by the number of entries counted. *)
Lemma fix_entries_again world index : forall n index' m,
  fix_entries world index n = Ok (index', m) ->
  forall k, fix_entries world index' k = Ok (index', k + (m - n)).
Proof.
  induction index as [|e index IH]; intros n index' m; cbn [fix_entries].
  - intros [= <- <-] k. cbn. f_equal. f_equal. lia.
  - destruct (fix_entry world e n) as [[e' n']|] eqn:He; [|discriminate]. cbn.
    destruct (fix_entries world index n') as [[rest m']|] eqn:Hrest;
      [|discriminate]. cbn.
    intros [= <- <-] k.
    apply fix_entry_inv in He as [Hpos He].
    specialize (IH _ _ _ Hrest). cbn [fix_entries].
    destruct (recovered world !! parse_position (position e))
      as [copies|] eqn:Hrec.
    + destruct He as (s & f & more & -> & -> & Hcdb & Hs & Hf).
      rewrite <- Hpos in Hrec.
      rewrite (fix_entry_present _ _ _ _ _ _ _ Hrec Hcdb). cbn.
      rewrite IH. cbn. destruct e'. cbn in *. subst.
      f_equal. f_equal. lia.
    + destruct He as [-> ->]. rewrite (fix_entry_absent _ _ _ Hrec). cbn.
      rewrite IH. done.
Qed.

Lemma fix_entries_untouched world index : forall n,
  Forall (fun e => recovered world !! parse_position (position e) = None)
    index ->
  fix_entries world index n = Ok (index, n).
Proof.
  induction index as [|e index IH]; intros n Hall; [done|].
  inversion Hall as [|? ? He Hrest]; subst. cbn [fix_entries].
  rewrite (fix_entry_absent _ _ _ He). cbn. by rewrite IH.
Qed.

Lemma fix_entries_app world pre : forall index n pre' m,
  fix_entries world pre n = Ok (pre', m) ->
  fix_entries world (pre ++ index) n =
    '(index', k) ← fix_entries world index m; Ok (pre' ++ index', k).
Proof.
  induction pre as [|e pre IH]; intros index n pre' m; cbn [fix_entries app].
  - intros [= <- <-]. cbn. by destruct (fix_entries world index n) as [[? ?]|].
  - destruct (fix_entry world e n) as [[e' n']|]; [|discriminate]. cbn.
    destruct (fix_entries world pre n') as [[rest m']|] eqn:Hrest;
      [|discriminate]. cbn.
    intros [= <- <-]. rewrite (IH _ _ _ _ Hrest).
    by destruct (fix_entries world index m') as [[? ?]|].
Qed.

(** C1, as amended: when the index file parses and every recovered position
    of an entry has a first candidate with a readable header, fix_cdb_index
    returns the number of entries whose position is in the recovered set and,
    unless that number is 0, writes the index back.  Each such entry has its
    slot, subfile and parameters overwritten with the first candidate and its
    header, whether or not they were already equal; every other entry is
    kept as it was. *)
Theorem fix_cdb_index_overwrites_every_recovered_entry
    (fs : gmap string (list Z)) path world data index :
  fs !! path = Some data ->
  Index_parse data = Ok index ->
  (forall e copies, e ∈ index ->
     recovered world !! parse_position (position e) = Some copies ->
     exists s f rest p, copies = (s, f) :: rest /\ cdb world s f = Ok p) ->
  exists index',
    fix_cdb_index fs path world =
      Ok (recovered_entries world index,
          if decide (recovered_entries world index = 0) then fs
          else <[path := Index_dumps index']> fs)
    /\ Forall2 (fun e e' =>
         position e' = position e /\
         match recovered world !! parse_position (position e) with
         | None => e' = e
         | Some copies =>
             exists s f rest, copies = (s, f) :: rest /\
               slot e' = s /\ subfile e' = f /\
               cdb world s f = Ok (parameters e')
         end) index index'.
Proof.
  intros Hfile Hparse Hok.
  destruct (fix_entries_total world index 0 Hok) as (index' & Hrun & Hrel).
  rewrite Z.add_0_l in Hrun. exists index'. split; [|done].
  unfold fix_cdb_index. rewrite Hfile. run_result. rewrite Hparse, Hrun.
  unfold truthy. case_decide as Hn.
  - rewrite Hn. done.
  - by rewrite (proj2 (Z.eqb_neq _ _) Hn).
Qed.

(** C2, as amended: with a codec that reads back what it writes, a second
    run of fix_cdb_index on the files the first run left returns the same
    count as the first run and leaves the files as they are. *)
Theorem fix_cdb_index_second_run
    (fs fs' : gmap string (list Z)) path world n :
  (forall index, Index_parse (Index_dumps index) = Ok index) ->
  fix_cdb_index fs path world = Ok (n, fs') ->
  fix_cdb_index fs' path world = Ok (n, fs').
Proof.
  intros Hcodec. unfold fix_cdb_index.
  destruct (fs !! path) as [data|] eqn:Hfile; [|discriminate]. run_result.
  destruct (Index_parse data) as [index|] eqn:Hparse; [|discriminate].
  destruct (fix_entries world index 0) as [[index' m]|] eqn:Hrun;
    [|discriminate].
  pose proof (fix_entries_again _ _ _ _ _ Hrun 0) as Hagain.
  replace (0 + (m - 0)) with m in Hagain by lia.
  destruct (truthy m) eqn:Hm; intros [= <- <-].
  - rewrite lookup_insert_eq, Hcodec, Hagain, Hm.
    by rewrite insert_insert_eq.
  - by rewrite Hfile, Hparse, Hrun, Hm.
Qed.

(** C4: with the index entry of position (5, 5, overworld) the only one at
    that position, whatever it pointed at before, and the recovered set
    mapping that position to the single candidate (2, 9), fix_cdb_index
    sets the entry's slot to 2, its subfile to 9 and its parameters to the
    header of that record, writes the index back, and returns 1. *)
Theorem fix_cdb_index_scenario
    (fs : gmap string (list Z)) path world data pre e post header :
  fs !! path = Some data ->
  Index_parse data = Ok (pre ++ e :: post) ->
  parse_position (position e) = (5, 5, OVERWORLD) ->
  Forall (fun e' => parse_position (position e') <> (5, 5, OVERWORLD))
    (pre ++ post) ->
  recovered world = {[ (5, 5, OVERWORLD) := [(2, 9)] ]} ->
  cdb world 2 9 = Ok header ->
  fix_cdb_index fs path world =
    Ok (1, <[path := Index_dumps (pre ++ patched e 2 9 header :: post)]> fs).
Proof.
  intros Hfile Hparse Hpos Hothers Hrec Hcdb.
  assert (forall l n,
    Forall (fun e' => parse_position (position e') <> (5, 5, OVERWORLD)) l ->
    fix_entries world l n = Ok (l, n)) as Hskip.
  { intros l n Hl. apply fix_entries_untouched.
    eapply Forall_impl; [exact Hl|]. cbn. intros e' Hne.
    rewrite Hrec. by apply lookup_singleton_ne. }
  apply Forall_app in Hothers as [Hpre Hpost].
  unfold fix_cdb_index. rewrite Hfile. run_result. rewrite Hparse.
  rewrite (fix_entries_app _ _ _ _ _ _ (Hskip pre 0 Hpre)).
  cbn [fix_entries].
  rewrite (fix_entry_present world e 0 2 9 [] header);
    [|by rewrite Hrec, Hpos, lookup_singleton_eq | done].
  run_result. by rewrite (Hskip post (0 + 1) Hpost).
Qed.

End IndexRepair.

(** *** The repair on the concrete index format *)

Lemma example_codec_reads_back index :
  example_parse (example_dumps index) = Ok index.
Proof.
  induction index as [|e index IH]; [done|].
  destruct e as [pos s f p]. cbn in pos. destruct pos as [[x z] d].
  cbn. by rewrite IH.
Qed.

Lemma example_first_candidate (e : @IndexEntry example_parser) copies :
  recovered example_world !! @parse_position example_parser (position e)
    = Some copies ->
  exists s f rest p,
    copies = (s, f) :: rest /\ cdb example_world s f = Ok p.
Proof.
  cbn. intros Hrec. apply lookup_singleton_Some in Hrec as [_ <-].
  by exists 2, 9, [], 42.
Qed.

Lemma fix_cdb_index_overwrites_every_recovered_entry_witness :
  exists index' : list (@IndexEntry example_parser),
    @fix_cdb_index example_parser example_codec
      (example_files [example_entry]) example_path example_world
      = Ok (1, <[example_path := example_dumps index']>
                 (example_files [example_entry]))
    /\ length index' = 1%nat.
Proof.
  destruct (@fix_cdb_index_overwrites_every_recovered_entry
              example_parser example_codec
              (example_files [example_entry]) example_path example_world
              (example_dumps [example_entry]) [example_entry])
    as (index' & Hrun & Hrel).
  - reflexivity.
  - reflexivity.
  - intros e copies _. apply example_first_candidate.
  - exists index'. split; [exact Hrun|].
    symmetry. exact (Forall2_length _ _ _ Hrel).
Defined.

(** C1, as the claim states it, fails: the entry already holds slot 2,
    subfile 9 and the parameters 42 of that record's header, and
    fix_cdb_index still counts it and writes the index back, where the
    claim has it left alone and a count of 0. *)
Lemma fix_cdb_index_counts_entry_already_equal :
  cdb example_world 2 9 = Ok (parameters example_entry_fixed) /\
  @fix_cdb_index example_parser example_codec
    (example_files [example_entry_fixed]) example_path example_world
    = Ok (1, <[example_path := example_dumps [example_entry_fixed]]>
               (example_files [example_entry_fixed])) /\
  @fix_cdb_index example_parser example_codec
    (example_files [example_entry_fixed]) example_path example_world
    <> Ok (0, example_files [example_entry_fixed]).
Proof.
  split; [reflexivity|]. split; [reflexivity|]. vm_compute. discriminate.
Qed.

(** C2, as the claim states it, fails: the first run repairs the entry and
    returns 1, and the second run, on the index the first one wrote and the
    same world, returns 1 again and not 0. *)
Lemma fix_cdb_index_second_run_counts_again :
  @fix_cdb_index example_parser example_codec
    (example_files [example_entry]) example_path example_world
    = Ok (1, example_files [example_entry_fixed]) /\
  @fix_cdb_index example_parser example_codec
    (example_files [example_entry_fixed]) example_path example_world
    = Ok (1, example_files [example_entry_fixed]) /\
  @fix_cdb_index example_parser example_codec
    (example_files [example_entry_fixed]) example_path example_world
    <> Ok (0, example_files [example_entry_fixed]).
Proof.
  split; [reflexivity|]. split; [reflexivity|]. vm_compute. discriminate.
Qed.

Lemma fix_cdb_index_second_run_witness :
  @fix_cdb_index example_parser example_codec
    (example_files [example_entry_fixed]) example_path example_world
    = Ok (1, example_files [example_entry_fixed]).
Proof.
  apply (@fix_cdb_index_second_run example_parser example_codec
           (example_files [example_entry])).
  - exact example_codec_reads_back.
  - reflexivity.
Defined.

Lemma fix_cdb_index_scenario_witness :
  @fix_cdb_index example_parser example_codec
    (example_files [example_entry]) example_path example_world
    = Ok (1, <[example_path := example_dumps [example_entry_fixed]]>
               (example_files [example_entry])).
Proof.
  apply (@fix_cdb_index_scenario example_parser example_codec
           (example_files [example_entry]) example_path example_world
           (example_dumps [example_entry]) [] example_entry [] 42).
  - reflexivity.
  - reflexivity.
  - reflexivity.
  - constructor.
  - reflexivity.
  - reflexivity.
Defined.

(** ** Cell coordinates *)

Lemma cell_coordinates_div_mod subchunk_y position :
  cell_coordinates subchunk_y position =
    (position `div` 256, position `mod` 16 + subchunk_y * 16,
     (position `div` 16) `mod` 16).
Proof.
  unfold cell_coordinates. f_equal; [f_equal|].
  - by rewrite Z.shiftr_div_pow2.
  - change 0xF with (Z.ones 4). by rewrite Z.land_ones.
  - rewrite Z.shiftr_land.
    change (Z.shiftr 0xF0 4) with (Z.ones 4).
    by rewrite Z.land_ones, Z.shiftr_div_pow2.
Qed.

Lemma cell_coordinates_in_volume subchunk_y position x y z :
  0 <= subchunk_y < 8 -> 0 <= position < 0x1000 ->
  cell_coordinates subchunk_y position = (x, y, z) ->
  0 <= x < 16 /\ 0 <= y < 128 /\ 0 <= z < 16.
Proof.
  intros Hs Hp. rewrite cell_coordinates_div_mod. intros [= <- <- <-].
  Z.to_euclidean_division_equations. lia.
Qed.

Lemma cell_coordinates_inj s1 p1 s2 p2 :
  0 <= p1 < 0x1000 -> 0 <= p2 < 0x1000 ->
  cell_coordinates s1 p1 = cell_coordinates s2 p2 ->
  s1 = s2 /\ p1 = p2.
Proof.
  intros H1 H2. rewrite !cell_coordinates_div_mod. intros [= Hx Hy Hz].
  Z.to_euclidean_division_equations. lia.
Qed.

Lemma cell_coordinates_onto x y z :
  0 <= x < 16 -> 0 <= y < 128 -> 0 <= z < 16 ->
  0 <= y `div` 16 < 8 /\ 0 <= 256 * x + 16 * z + y `mod` 16 < 0x1000 /\
  cell_coordinates (y `div` 16) (256 * x + 16 * z + y `mod` 16) = (x, y, z).
Proof.
  intros Hx Hy Hz. rewrite cell_coordinates_div_mod.
  split; [|split]; [| |f_equal; [f_equal|]];
    Z.to_euclidean_division_equations; lia.
Qed.

(** ** The traversal of a chunk *)

Lemma enumerate_from_fmap {A B} (g : Z -> B) (l : list A) : forall i,
  (fun '(j, _) => g j) <$> enumerate_from i l
    = g <$> seqZ i (Z.of_nat (length l)).
Proof.
  induction l as [|a l IH]; intros i; [done|].
  cbn [enumerate_from length]. rewrite seqZ_cons by lia.
  rewrite !fmap_cons, IH. do 3 f_equal; lia.
Qed.

Lemma elem_of_enumerate_from {A} (l : list A) : forall i j a,
  (j, a) ∈ enumerate_from i l ->
  i <= j < i + Z.of_nat (length l) /\ l !! Z.to_nat (j - i) = Some a.
Proof.
  induction l as [|b l IH]; intros i j a; cbn [enumerate_from length].
  - by intros ?%elem_of_nil.
  - intros [[= -> ->]|Hin]%elem_of_cons.
    + split; [lia|]. by rewrite Z.sub_diag.
    + apply IH in Hin as [Hj Hl]. split; [lia|].
      replace (Z.to_nat (j - i)) with (S (Z.to_nat (j - (i + 1)))) by lia.
      done.
Qed.

(** The cells of a chunk of [n] subchunks, in the order of the loops. *)
Local Abbreviation grid n :=
  (seqZ 0 n ≫= fun subchunk_y =>
     cell_coordinates subchunk_y <$> seqZ 0 0x1000).

Lemma enumerate_from_grid (l : list (list Z)) : forall i,
  Forall (fun blocks => 0x1000 <= Z.of_nat (length blocks)) l ->
  (enumerate_from i l ≫= fun '(subchunk_y, blocks) =>
     (fun '(position, _) => cell_coordinates subchunk_y position)
       <$> enumerate (take (Z.to_nat 0x1000) blocks))
  = seqZ i (Z.of_nat (length l)) ≫= fun subchunk_y =>
      cell_coordinates subchunk_y <$> seqZ 0 0x1000.
Proof.
  induction l as [|blocks l IH]; intros i Hall; [done|].
  inversion Hall as [|? ? Hlen Hrest]; subst.
  cbn [enumerate_from length].
  rewrite (seqZ_cons i (Z.of_nat (S (length l)))) by lia.
  rewrite !bind_cons. f_equal.
  - unfold enumerate. rewrite (enumerate_from_fmap (cell_coordinates i)).
    rewrite length_take_le by lia. by rewrite Z2Nat.id.
  - rewrite (IH _ Hrest). do 2 f_equal; lia.
Qed.

Lemma visited_cells_grid entry :
  Forall (fun blocks => 0x1000 <= Z.of_nat (length blocks))
    (Entry.blocks entry) ->
  visited_cells entry = grid (Z.of_nat (length (Entry.blocks entry))).
Proof. apply enumerate_from_grid. Qed.

Lemma elem_of_grid n x y z :
  (x, y, z) ∈ grid n <->
  exists subchunk_y position,
    0 <= subchunk_y < n /\ 0 <= position < 0x1000 /\
    cell_coordinates subchunk_y position = (x, y, z).
Proof.
  rewrite list_elem_of_bind. split.
  - intros (s & (p & Hc & Hp%elem_of_seqZ)%list_elem_of_fmap & Hs%elem_of_seqZ).
    exists s, p. split; [lia|]. split; [lia|done].
  - intros (s & p & Hs & Hp & Hc). exists s. split.
    + apply list_elem_of_fmap. exists p. split; [done|].
      apply elem_of_seqZ. lia.
    + apply elem_of_seqZ. lia.
Qed.

Lemma NoDup_grid n : NoDup (grid n).
Proof.
  apply NoDup_bind; [| |apply NoDup_seqZ].
  - intros s1 s2 c _ _.
    intros (p1 & -> & Hp1%elem_of_seqZ)%list_elem_of_fmap.
    intros (p2 & Heq & Hp2%elem_of_seqZ)%list_elem_of_fmap.
    by apply cell_coordinates_inj in Heq as [? ?]; [|lia..].
  - intros s _. apply NoDup_fmap_2_strong; [|apply NoDup_seqZ].
    intros p1 p2 Hp1%elem_of_seqZ Hp2%elem_of_seqZ Heq.
    by apply cell_coordinates_inj in Heq as [? ?]; [|lia..].
Qed.

(** C5: over an entry of 8 subchunks of at least 4096 cells each, the two
    loops of place_blocks, with x = position >> 8,
    z = (position & 0xF0) >> 4 and y = (position & 0xF) + 16 * subchunk,
    go through no cell twice, and the cells they go through are exactly
    the (x, y, z) with 0 <= x < 16, 0 <= y < 128 and 0 <= z < 16. *)
Theorem visited_cells_cover_volume_once entry :
  length (Entry.blocks entry) = 8%nat ->
  Forall (fun blocks => 0x1000 <= Z.of_nat (length blocks))
    (Entry.blocks entry) ->
  NoDup (visited_cells entry) /\
  forall x y z,
    (x, y, z) ∈ visited_cells entry <->
    0 <= x < 16 /\ 0 <= y < 128 /\ 0 <= z < 16.
Proof.
  intros Hlen Hall. rewrite (visited_cells_grid _ Hall), Hlen.
  split; [apply NoDup_grid|]. intros x y z. rewrite elem_of_grid. split.
  - intros (s & p & Hs & Hp & Hc).
    by apply (cell_coordinates_in_volume s p); [lia| |].
  - intros (Hx & Hy & Hz).
    destruct (cell_coordinates_onto x y z Hx Hy Hz) as (Hs & Hp & Hc).
    exists (y `div` 16), (256 * x + 16 * z + y `mod` 16).
    split; [lia|]. by split.
Qed.

(** ** Placing the blocks of a cell *)

(** Runs the binds of the statements whose outcome is decided. *)
Ltac run_stateful :=
  unfold mbind, mret, Stateful_bind, Stateful_ret, lift, print_stderr; cbn.

(** The state once the cell holds the block. *)
Local Abbreviation cell_set s cell block :=
  {| chunk := {| chunk_x := chunk_x (chunk s);
                 chunk_z := chunk_z (chunk s);
                 cells := <[cell := block]> (cells (chunk s)) |};
     stderr := stderr s |}.

(** The state once the line is printed. *)
Local Abbreviation reported s d :=
  {| chunk := chunk s; stderr := stderr s ++ [d] |}.

Lemma py_index_lookup {A} (l : list A) i a :
  0 <= i -> l !! Z.to_nat i = Some a -> py_index l i = Ok a.
Proof.
  intros Hi Hl. unfold py_index.
  rewrite (proj2 (Z.ltb_ge i 0)) by lia. cbn zeta.
  rewrite (proj2 (Z.ltb_ge i 0)) by lia. by rewrite Hl.
Qed.

Lemma data_nibble_lookup subchunk position byte :
  0 <= position ->
  subchunk !! Z.to_nat (0x1000 + position `div` 2) = Some byte ->
  data_nibble subchunk position =
    Ok (if position `mod` 2 =? 0 then Z.land byte 0xF else Z.shiftr byte 4).
Proof.
  intros Hp Hl. unfold data_nibble.
  rewrite (py_index_lookup _ _ byte); [|Z.to_euclidean_division_equations; lia
                                       |done].
  run_result. by destruct (position `mod` 2 =? 0).
Qed.

Lemma set_block_in_chunk block x y z s :
  0 <= x < 16 -> 0 <= y < 256 -> 0 <= z < 16 ->
  set_block block x y z s = (Ok tt, cell_set s (x, y, z) block).
Proof.
  intros Hx Hy Hz. unfold set_block.
  by rewrite !(proj2 (Z.ltb_ge _ _)) by lia.
Qed.

Lemma cell_coordinates_in_chunk subchunk_y position x y z :
  0 <= subchunk_y < 16 -> 0 <= position < 0x1000 ->
  cell_coordinates subchunk_y position = (x, y, z) ->
  0 <= x < 16 /\ 0 <= y < 256 /\ 0 <= z < 16.
Proof.
  intros Hs Hp. rewrite cell_coordinates_div_mod. intros [= <- <- <-].
  Z.to_euclidean_division_equations. lia.
Qed.

Lemma translate_known self block_id cell s known :
  blocks self !! block_id = Some known ->
  translate self block_id cell s = (Ok known, s).
Proof. unfold translate. by intros ->. Qed.

Lemma translate_unknown self block_id cell s :
  blocks self !! block_id = None ->
  translate self block_id cell s =
    (Ok unknown_block_substitute,
     reported s {| unknown_block := block_id; at_cell := cell;
                   in_dimension := dimension self |}).
Proof. unfold translate. by intros ->. Qed.

Lemma place_cell_air self subchunk_y subchunk position s :
  data_nibble subchunk position = Ok 0 ->
  place_cell self subchunk_y subchunk position 0 s = (Ok tt, s).
Proof.
  intros Hd. unfold place_cell.
  destruct (cell_coordinates subchunk_y position) as [[x y] z].
  run_stateful. by rewrite Hd.
Qed.

Lemma place_cell_block self subchunk_y subchunk position block data s :
  0 <= subchunk_y < 16 -> 0 <= position < 0x1000 ->
  data_nibble subchunk position = Ok data ->
  (block, data) <> (0, 0) ->
  place_cell self subchunk_y subchunk position block s =
    match blocks self !! (block, data) with
    | Some known =>
        (Ok tt, cell_set s (cell_coordinates subchunk_y position) known)
    | None =>
        (Ok tt,
         cell_set
           (reported s {| unknown_block := (block, data);
                          at_cell := cell_coordinates subchunk_y position;
                          in_dimension := dimension self |})
           (cell_coordinates subchunk_y position) unknown_block_substitute)
    end.
Proof.
  intros Hs Hp Hd Hne. unfold place_cell.
  destruct (cell_coordinates subchunk_y position) as [[x y] z] eqn:Hc.
  destruct (cell_coordinates_in_chunk _ _ _ _ _ Hs Hp Hc) as (Hx & Hy & Hz).
  run_stateful. rewrite Hd. rewrite bool_decide_true by done.
  destruct (blocks self !! (block, data)) as [known|] eqn:Hb.
  - rewrite (translate_known _ _ _ _ _ Hb). by apply set_block_in_chunk.
  - rewrite (translate_unknown _ _ _ _ Hb). by apply set_block_in_chunk.
Qed.

(** ** Running the loops *)

Lemma for_each_skip {S A} (l : list A) (body : A -> Stateful S unit) s :
  (forall a, a ∈ l -> body a s = (Ok tt, s)) ->
  for_each l body s = (Ok tt, s).
Proof.
  induction l as [|a l IH]; intros Hbody; [done|].
  cbn [for_each]. unfold mbind, Stateful_bind.
  rewrite (Hbody a) by left. apply IH. intros b Hb. apply Hbody. by right.
Qed.

Lemma for_each_returns {S A} (l : list A) (body : A -> Stateful S unit) :
  (forall a s, a ∈ l -> exists s', body a s = (Ok tt, s')) ->
  forall s, exists s', for_each l body s = (Ok tt, s').
Proof.
  induction l as [|a l IH]; intros Hbody s; [by exists s|].
  destruct (Hbody a s) as [s1 Hs1]; [left|].
  destruct (IH (fun b t Hb => Hbody b t (list_elem_of_further _ _ _ Hb)) s1)
    as [s2 Hs2].
  exists s2. cbn [for_each]. unfold mbind, Stateful_bind. by rewrite Hs1.
Qed.

(** What the inner loop enumerates: a position below 4096 and the byte of
    the subchunk at it. *)
Lemma elem_of_enumerate_take (subchunk : list Z) position block :
  (position, block) ∈ enumerate (take (Z.to_nat 0x1000) subchunk) ->
  0 <= position < 0x1000 /\ block ∈ subchunk.
Proof.
  intros [Hp Hl]%elem_of_enumerate_from.
  rewrite length_take in Hp. split; [lia|].
  apply list_elem_of_lookup_2 in Hl. by apply elem_of_take in Hl as (i & ?%list_elem_of_lookup_2 & _).
Qed.

Lemma data_nibble_total subchunk position :
  0 <= position < 0x1000 -> 0x1800 <= Z.of_nat (length subchunk) ->
  exists byte, byte ∈ subchunk /\
    data_nibble subchunk position =
      Ok (if position `mod` 2 =? 0 then Z.land byte 0xF
          else Z.shiftr byte 4).
Proof.
  intros Hp Hlen.
  destruct (lookup_lt_is_Some_2 subchunk
              (Z.to_nat (0x1000 + position `div` 2))) as [byte Hbyte].
  { Z.to_euclidean_division_equations. lia. }
  exists byte. split; [by eapply list_elem_of_lookup_2|].
  apply data_nibble_lookup; [lia|done].
Qed.

Lemma place_cell_returns self subchunk_y subchunk position block s :
  0 <= subchunk_y < 16 -> 0 <= position < 0x1000 ->
  0x1800 <= Z.of_nat (length subchunk) ->
  exists s', place_cell self subchunk_y subchunk position block s = (Ok tt, s').
Proof.
  intros Hs Hp Hlen.
  destruct (data_nibble_total subchunk position Hp Hlen) as (byte & _ & Hd).
  destruct (decide ((block,
    if position `mod` 2 =? 0 then Z.land byte 0xF else Z.shiftr byte 4)
    = (0, 0))) as [[= -> Hzero]|Hne].
  - rewrite Hzero in Hd. exists s. by apply place_cell_air.
  - rewrite (place_cell_block _ _ _ _ _ _ _ Hs Hp Hd Hne).
    destruct (blocks self !! _); eauto.
Qed.

(** On an entry of at most 16 subchunks, each holding its 4096 block ids
    and 2048 data bytes, [place_blocks] returns whatever the bytes and the
    block table are. *)
Lemma place_blocks_returns self entry0 err :
  entry self = Some entry0 ->
  (length (Entry.blocks entry0) <= 16)%nat ->
  Forall (fun subchunk => 0x1800 <= Z.of_nat (length subchunk))
    (Entry.blocks entry0) ->
  exists s', place_blocks self err = (Ok tt, s').
Proof.
  intros Hentry Hcount Hall. unfold place_blocks. rewrite Hentry. cbn [andb].
  apply for_each_returns. intros [subchunk_y subchunk] s Hin.
  apply elem_of_enumerate_from in Hin as [Hs Hsub].
  apply list_elem_of_lookup_2 in Hsub.
  rewrite Forall_forall in Hall. specialize (Hall _ Hsub).
  apply for_each_returns. intros [position block] t Hcell.
  apply elem_of_enumerate_take in Hcell as [Hp _].
  apply place_cell_returns; [lia|done|done].
Qed.

Lemma data_nibble_zero subchunk position :
  0 <= position < 0x1000 -> 0x1800 <= Z.of_nat (length subchunk) ->
  Forall (eq 0) subchunk ->
  data_nibble subchunk position = Ok 0.
Proof.
  intros Hp Hlen Hzero.
  destruct (data_nibble_total subchunk position Hp Hlen) as (byte & Hin & ->).
  rewrite Forall_forall in Hzero. rewrite <- (Hzero _ Hin).
  by destruct (position `mod` 2 =? 0).
Qed.

(** ** The claims on place_blocks *)

(** C3, on the code: for an entry of world.entries that is True, convert
    builds a converter without an entry and flagged corrupted; its
    place_blocks, the marker fill being switched off, reads the blocks of
    the missing entry and raises AttributeError, with the chunk created and
    nothing set, so convert_chunk produces no chunk for the position. *)
Theorem place_blocks_corrupted_placeholder_raises
    (x z d : Z) table err :
  let self := ChunkConverter_init (x, z, d) None table true in
  let created :=
    {| chunk := {| chunk_x := x; chunk_z := z; cells := ∅ |};
       stderr := err |} in
  entry_converters [((x, z, d), IsTrue)] table = [self] /\
  place_blocks self err = (Raise AttributeError, created) /\
  convert_chunk self err = (Raise AttributeError, created).
Proof. done. Qed.

(** C6: the lookup of a block id that is in the table returns the
    descriptor stored for it and prints nothing; the lookup of one that is
    not prints one line holding the block id, the cell and the dimension and
    returns the netherite block.  For a cell whose pair is not (0, 0) the
    loop sets the cell to the block so obtained and goes on with the
    remaining cells. *)
Theorem unknown_block_is_reported_and_substituted self :
  (forall block_id cell s,
     match blocks self !! block_id with
     | Some known => translate self block_id cell s = (Ok known, s)
     | None =>
         translate self block_id cell s =
           (Ok {| namespace := "minecraft"; name := "netherite_block";
                  properties := ∅ |},
            reported s {| unknown_block := block_id; at_cell := cell;
                          in_dimension := dimension self |})
     end) /\
  (forall subchunk_y subchunk position block data rest s,
     0 <= subchunk_y < 16 -> 0 <= position < 0x1000 ->
     data_nibble subchunk position = Ok data ->
     (block, data) <> (0, 0) ->
     let body := fun '(position, block) =>
       place_cell self subchunk_y subchunk position block in
     let cell := cell_coordinates subchunk_y position in
     for_each ((position, block) :: rest) body s =
       match blocks self !! (block, data) with
       | Some known => for_each rest body (cell_set s cell known)
       | None =>
           for_each rest body
             (cell_set
                (reported s {| unknown_block := (block, data);
                               at_cell := cell;
                               in_dimension := dimension self |})
                cell unknown_block_substitute)
       end).
Proof.
  split.
  - intros block_id cell s.
    destruct (blocks self !! block_id) as [known|] eqn:Hb.
    + by apply translate_known.
    + by apply translate_unknown.
  - intros subchunk_y subchunk position block data rest s Hs Hp Hd Hne.
    cbn zeta. cbn [for_each]. unfold mbind, Stateful_bind.
    rewrite (place_cell_block _ _ _ _ _ _ _ Hs Hp Hd Hne).
    by destruct (blocks self !! (block, data)).
Qed.

Lemma unknown_block_is_reported_and_substituted_witness :
  for_each [(0, 1)]
    (fun '(position, block) =>
       place_cell example_converter 0 (example_subchunk 0) position block)
    example_state
  = (Ok tt,
     {| chunk := {| chunk_x := 5; chunk_z := 5;
                    cells := {[ (0, 0, 0) := unknown_block_substitute ]} |};
        stderr := [ {| unknown_block := (1, 0); at_cell := (0, 0, 0);
                       in_dimension := OVERWORLD |} ] |}).
Proof.
  refine (eq_trans
    (proj2 (unknown_block_is_reported_and_substituted example_converter)
       0 (example_subchunk 0) 0 1 0 [] example_state _ _ _ _) _).
  - lia.
  - lia.
  - reflexivity.
  - discriminate.
  - reflexivity.
Defined.

(** C7: the data value of the cell at [position] comes from the byte at
    offset 0x1000 + position div 2 of the subchunk, its low nibble for an
    even position and its high nibble for an odd one; with the byte 0x37 at
    pair index k, the cell 2k has data value 7 and the cell 2k+1 data
    value 3. *)
Theorem data_nibble_low_even_high_odd subchunk :
  (forall position byte,
     0 <= position -> 0 <= byte < 256 ->
     subchunk !! Z.to_nat (0x1000 + position `div` 2) = Some byte ->
     data_nibble subchunk position =
       Ok (if Z.even position then byte `mod` 16 else byte `div` 16)) /\
  (forall k,
     0 <= k ->
     subchunk !! Z.to_nat (0x1000 + k) = Some 0x37 ->
     data_nibble subchunk (2 * k) = Ok 7 /\
     data_nibble subchunk (2 * k + 1) = Ok 3).
Proof.
  split.
  - intros position byte Hp Hb Hl.
    rewrite (data_nibble_lookup _ _ _ Hp Hl). f_equal.
    rewrite Z.shiftr_div_pow2 by lia.
    change 0xF with (Z.ones 4). rewrite Z.land_ones by lia.
    rewrite Zeven_mod. done.
  - intros k Hk Hl. split.
    + rewrite (data_nibble_lookup _ _ 0x37); [|lia|].
      * by replace ((2 * k) `mod` 2) with 0
          by (Z.to_euclidean_division_equations; lia).
      * by replace ((2 * k) `div` 2) with k
          by (Z.to_euclidean_division_equations; lia).
    + rewrite (data_nibble_lookup _ _ 0x37); [|lia|].
      * by replace ((2 * k + 1) `mod` 2) with 1
          by (Z.to_euclidean_division_equations; lia).
      * by replace ((2 * k + 1) `div` 2) with k
          by (Z.to_euclidean_division_equations; lia).
Qed.

Lemma data_nibble_low_even_high_odd_witness :
  data_nibble (example_subchunk 0x37) 5 = Ok 0 /\
  data_nibble (example_subchunk 0x37) 0 = Ok 7 /\
  data_nibble (example_subchunk 0x37) 1 = Ok 3.
Proof.
  split.
  - apply (proj1 (data_nibble_low_even_high_odd (example_subchunk 0x37))
             5 0).
    + lia.
    + lia.
    + reflexivity.
  - apply (proj2 (data_nibble_low_even_high_odd (example_subchunk 0x37)) 0).
    + lia.
    + reflexivity.
Defined.

(** C8: a cell whose block id and data value are both 0 is skipped, the
    chunk and the diagnostics staying as they were; so an entry whose
    subchunks hold only zero bytes, 4096 block ids and 2048 data bytes each,
    is converted to a chunk with no cell set and nothing printed. *)
Theorem air_cells_are_skipped self :
  (forall subchunk_y subchunk position s,
     data_nibble subchunk position = Ok 0 ->
     place_cell self subchunk_y subchunk position 0 s = (Ok tt, s)) /\
  (forall entry0 err,
     entry self = Some entry0 ->
     Forall (fun subchunk =>
               0x1800 <= Z.of_nat (length subchunk) /\ Forall (eq 0) subchunk)
       (Entry.blocks entry0) ->
     place_blocks self err =
       (Ok tt,
        {| chunk := {| chunk_x := region_x self; chunk_z := region_z self;
                       cells := ∅ |};
           stderr := err |})).
Proof.
  split; [intros; by apply place_cell_air|].
  intros entry0 err Hentry Hall. unfold place_blocks. rewrite Hentry.
  cbn [andb]. apply for_each_skip. intros [subchunk_y subchunk] Hin.
  apply elem_of_enumerate_from in Hin as [_ Hsub].
  apply list_elem_of_lookup_2 in Hsub.
  rewrite Forall_forall in Hall. destruct (Hall _ Hsub) as [Hlen Hzero].
  apply for_each_skip. intros [position block] Hcell.
  apply elem_of_enumerate_take in Hcell as [Hp Hblock].
  rewrite Forall_forall in Hzero. rewrite <- (Hzero _ Hblock).
  apply place_cell_air, data_nibble_zero; [done|done|].
  by apply Forall_forall.
Qed.

Lemma air_cells_are_skipped_witness :
  place_cell example_converter 0 (example_subchunk 0) 0 0 example_state
    = (Ok tt, example_state) /\
  place_blocks example_converter [] = (Ok tt, example_state).
Proof.
  split.
  - apply (proj1 (air_cells_are_skipped example_converter)). reflexivity.
  - apply (proj2 (air_cells_are_skipped example_converter) example_air_entry).
    + reflexivity.
    + apply Forall_replicate. split.
      * rewrite length_replicate. lia.
      * apply Forall_replicate. reflexivity.
Defined.

(** C10: a cell with block id 0 and a data value other than 0 is not
    skipped: its pair is looked up in the table, and when the table has no
    entry for it one line naming the pair, the cell and the dimension is
    printed and the cell is set to the netherite block; when the table has
    one, the cell is set to it. *)
Theorem zero_id_nonzero_data_is_not_air
    self subchunk_y subchunk position data s :
  0 <= subchunk_y < 16 -> 0 <= position < 0x1000 ->
  data_nibble subchunk position = Ok data ->
  data <> 0 ->
  let cell := cell_coordinates subchunk_y position in
  (blocks self !! (0, data) = None ->
   place_cell self subchunk_y subchunk position 0 s =
     (Ok tt,
      cell_set
        (reported s {| unknown_block := (0, data); at_cell := cell;
                       in_dimension := dimension self |})
        cell
        {| namespace := "minecraft"; name := "netherite_block";
           properties := ∅ |})) /\
  (forall known,
     blocks self !! (0, data) = Some known ->
     place_cell self subchunk_y subchunk position 0 s =
       (Ok tt, cell_set s cell known)).
Proof.
  intros Hs Hp Hd Hne cell.
  assert ((0, data) <> (0, 0)) as Hpair by congruence.
  rewrite (place_cell_block _ _ _ _ _ _ _ Hs Hp Hd Hpair).
  split; [by intros ->|]. by intros known ->.
Qed.

Lemma zero_id_nonzero_data_is_not_air_witness :
  place_cell example_converter 0 (example_subchunk 0x05) 0 0 example_state
  = (Ok tt,
     {| chunk := {| chunk_x := 5; chunk_z := 5;
                    cells := {[ (0, 0, 0) := unknown_block_substitute ]} |};
        stderr := [ {| unknown_block := (0, 5); at_cell := (0, 0, 0);
                       in_dimension := OVERWORLD |} ] |}).
Proof.
  refine (proj1 (zero_id_nonzero_data_is_not_air example_converter 0
                   (example_subchunk 0x05) 0 5 example_state _ _ _ _) _).
  - lia.
  - lia.
  - reflexivity.
  - discriminate.
  - reflexivity.
Defined.

Lemma visited_cells_cover_volume_once_witness :
  NoDup (visited_cells example_air_entry) /\
  (3, 100, 7) ∈ visited_cells example_air_entry /\
  (3, 128, 7) ∉ visited_cells example_air_entry.
Proof.
  destruct (visited_cells_cover_volume_once example_air_entry)
    as [Hnodup Hcells].
  - reflexivity.
  - apply Forall_replicate. rewrite length_replicate. lia.
  - split; [exact Hnodup|]. split.
    + apply Hcells. lia.
    + intros Hin%Hcells. lia.
Defined.

(** ** parse_block_json *)

Lemma unpack2_raises {A} (parts : list A) e :
  unpack2 parts = Raise e -> e = ValueError.
Proof. destruct parts as [|a [|b [|c parts]]]; cbn; congruence. Qed.

Lemma unpack2_length {A} (parts : list A) :
  length parts <> 2%nat -> unpack2 parts = Raise ValueError.
Proof. by destruct parts as [|a [|b [|c parts]]]. Qed.

Lemma int_digits_raises s : forall acc e,
  int_digits acc s = Raise e -> e = ValueError.
Proof.
  assert (forall n s, (String.length s <= n)%nat -> forall acc e,
            int_digits acc s = Raise e -> e = ValueError) as Hn.
  { clear s. induction n as [|n IH]; intros s Hlen acc e.
    - destruct s; [discriminate|cbn in Hlen; lia].
    - destruct s as [|c s]; [discriminate|]. cbn [int_digits].
      cbn in Hlen. destruct (is_digit c).
      + apply IH. lia.
      + destruct (Ascii.eqb c "_").
        * destruct s as [|d s]; [congruence|].
          destruct (is_digit d); [|congruence].
          apply IH. cbn in Hlen. lia.
        * destruct (all_space (String c s)); congruence. }
  by apply (Hn (String.length s)).
Qed.

Lemma int_raises s e : int s = Raise e -> e = ValueError.
Proof.
  unfold int.
  assert (forall sign t,
    match t with
    | String c t' =>
        if is_digit c then n ← int_digits (digit_value c) t'; Ok (sign * n)
        else Raise ValueError
    | EmptyString => Raise ValueError
    end = Raise e -> e = ValueError) as Hbody.
  { intros sign [|c t]; [congruence|]. destruct (is_digit c); [|congruence].
    destruct (int_digits (digit_value c) t) as [n|e'] eqn:Hd; run_result;
      [discriminate|].
    intros [= <-]. by apply int_digits_raises in Hd. }
  destruct (lstrip s) as [|c t]; [congruence|].
  destruct (Ascii.eqb_spec c "+") as [->|Hplus]; [apply Hbody|].
  destruct (Ascii.eqb_spec c "-") as [->|Hminus]; [apply Hbody|].
  intros Hrun. apply (Hbody 1 (String c t)). revert Hrun.
  destruct c as [[] [] [] [] [] [] [] []]; try done.
Qed.

Lemma dict_of_items_raises items : forall d e,
  dict_of_items items d = Raise e -> e = ValueError.
Proof.
  induction items as [|item items IH]; intros d e; [discriminate|].
  cbn [dict_of_items].
  destruct (unpack2 (split "=" item)) as [[key value]|e'] eqn:Hu; run_result.
  - apply IH.
  - intros [= <-]. by apply unpack2_raises in Hu.
Qed.

Lemma parse_block_raises numerical_id new e :
  parse_block numerical_id new = Raise e -> e = ValueError.
Proof.
  unfold parse_block.
  destruct (unpack2 (split ":" numerical_id)) as [[block_str data_str]|e1]
    eqn:Hkey; run_result;
    [|intros [= <-]; by apply unpack2_raises in Hkey].
  destruct (int block_str) as [block|e1] eqn:Hblock; run_result;
    [|intros [= <-]; by apply int_raises in Hblock].
  destruct (int data_str) as [data|e1] eqn:Hdata; run_result;
    [|intros [= <-]; by apply int_raises in Hdata].
  destruct (block_json_match new) as [[group1 group2]|]; run_result;
    [|congruence].
  match goal with
  | |- match ?props with _ => _ end = _ -> _ =>
      destruct props as [nbt_data|e1] eqn:Hprops
  end.
  - destruct (unpack2 (split ":" group1)) as [[namespace0 block0]|e1]
      eqn:Hname; run_result; [discriminate|].
    intros [= <-]. by apply unpack2_raises in Hname.
  - intros [= <-]. destruct group2 as [[|c s]|]; try discriminate.
    by apply dict_of_items_raises in Hprops.
Qed.

Lemma parse_blocks_raises items : forall table e,
  parse_blocks items table = Raise e -> e = ValueError.
Proof.
  induction items as [|[numerical_id new] items IH]; intros table e;
    [discriminate|].
  cbn [parse_blocks].
  destruct (parse_block numerical_id new) as [[block_id block]|e1] eqn:Hitem;
    run_result.
  - apply IH.
  - intros [= <-]. by apply parse_block_raises in Hitem.
Qed.

(** One item that cannot be parsed makes the whole table fail. *)
Lemma parse_blocks_bad_item items numerical_id new : forall table,
  (numerical_id, new) ∈ items ->
  parse_block numerical_id new = Raise ValueError ->
  parse_blocks items table = Raise ValueError.
Proof.
  induction items as [|[k v] items IH]; intros table Hin Hbad.
  - by apply elem_of_nil in Hin.
  - cbn [parse_blocks].
    destruct (parse_block k v) as [[block_id block]|e1] eqn:Hitem; run_result.
    + apply elem_of_cons in Hin as [[= -> ->]|Hin]; [congruence|].
      by apply IH.
    + f_equal. by apply parse_block_raises in Hitem.
Qed.

Lemma parse_block_bad_key numerical_id new :
  length (split ":" numerical_id) <> 2%nat ->
  parse_block numerical_id new = Raise ValueError.
Proof.
  intros Hlen. unfold parse_block. by rewrite (unpack2_length _ Hlen).
Qed.

Lemma parse_block_no_match numerical_id new :
  block_json_match new = None ->
  parse_block numerical_id new = Raise ValueError.
Proof.
  intros Hnew.
  destruct (parse_block numerical_id new) as [[block_id block]|e] eqn:Hrun;
    [|f_equal; by apply parse_block_raises in Hrun].
  revert Hrun. unfold parse_block.
  destruct (unpack2 (split ":" numerical_id)) as [[block_str data_str]|];
    run_result; [|discriminate].
  destruct (int block_str); run_result; [|discriminate].
  destruct (int data_str); run_result; [|discriminate].
  by rewrite Hnew.
Qed.

Lemma parse_blocks_app before : forall after table,
  parse_blocks (before ++ after) table =
    parse_blocks before table ≫= parse_blocks after.
Proof.
  induction before as [|[k v] before IH]; intros after table; [done|].
  cbn [app parse_blocks].
  destruct (parse_block k v) as [[block_id block]|]; run_result; [|done].
  apply IH.
Qed.

(** An entry of the table stays as it is while no later item is for the
    same block id. *)
Lemma parse_blocks_keeps items block_id block : forall table result,
  parse_blocks items table = Ok result ->
  table !! block_id = Some block ->
  Forall (fun item => forall block_id' block',
            parse_block item.1 item.2 = Ok (block_id', block') ->
            block_id' <> block_id) items ->
  result !! block_id = Some block.
Proof.
  induction items as [|[k v] items IH]; intros table result.
  - by intros [= <-].
  - cbn [parse_blocks]. intros Hrun Htable Hothers.
    inversion Hothers as [|? ? Hitem Hrest]; subst. cbn in Hitem.
    destruct (parse_block k v) as [[block_id' block']|]; run_result;
      [|discriminate].
    apply (IH _ _ Hrun); [|done].
    rewrite lookup_insert_ne; [done|]. by apply (Hitem _ block').
Qed.

Lemma parse_block_json_item before numerical_id new after block_id block
    result :
  parse_block numerical_id new = Ok (block_id, block) ->
  parse_block_json (before ++ (numerical_id, new) :: after) = Ok result ->
  Forall (fun item => forall block_id' block',
            parse_block item.1 item.2 = Ok (block_id', block') ->
            block_id' <> block_id) after ->
  result !! block_id = Some block.
Proof.
  intros Hitem. unfold parse_block_json. rewrite parse_blocks_app.
  destruct (parse_blocks before ∅) as [table|]; run_result; [|discriminate].
  rewrite Hitem. intros Hrun Hothers.
  apply (parse_blocks_keeps _ _ _ _ _ Hrun); [|done].
  apply lookup_insert_eq.
Qed.

(** C9: parse_block_json raises ValueError as soon as one key of the table
    does not split at colons into exactly two parts, or one value is not
    matched by the pattern, whatever the other items are.  In a table that
    is parsed, the key 1:0 with the value minecraft:stone gives the block
    id (1, 0) the namespace minecraft, the name stone and no property, and
    the key 5:2 with the value minecraft:wood[variant=birch] gives (5, 2)
    the property variant = birch, no later item being for the same block
    id; the table of these two items is parsed. *)
Theorem parse_block_json_rejects_malformed_tables :
  (forall raw_blocks numerical_id new,
     (numerical_id, new) ∈ raw_blocks ->
     length (split ":" numerical_id) <> 2%nat ->
     parse_block_json raw_blocks = Raise ValueError) /\
  (forall raw_blocks numerical_id new,
     (numerical_id, new) ∈ raw_blocks ->
     block_json_match new = None ->
     parse_block_json raw_blocks = Raise ValueError) /\
  (forall before after result,
     parse_block_json (before ++ ("1:0", "minecraft:stone") :: after)
       = Ok result ->
     Forall (fun item => forall block_id' block',
               parse_block item.1 item.2 = Ok (block_id', block') ->
               block_id' <> (1, 0)) after ->
     result !! (1, 0) =
       Some {| namespace := "minecraft"; name := "stone";
               properties := ∅ |}) /\
  (forall before after result,
     parse_block_json
       (before ++ ("5:2", "minecraft:wood[variant=birch]") :: after)
       = Ok result ->
     Forall (fun item => forall block_id' block',
               parse_block item.1 item.2 = Ok (block_id', block') ->
               block_id' <> (5, 2)) after ->
     result !! (5, 2) =
       Some {| namespace := "minecraft"; name := "wood";
               properties := {[ "variant" := "birch" ]} |}) /\
  parse_block_json
    [("1:0", "minecraft:stone"); ("5:2", "minecraft:wood[variant=birch]")]
  = Ok example_table.
Proof.
  split_and!.
  - intros raw_blocks numerical_id new Hin Hkey.
    apply (parse_blocks_bad_item _ _ _ _ Hin).
    by apply parse_block_bad_key.
  - intros raw_blocks numerical_id new Hin Hnew.
    apply (parse_blocks_bad_item _ _ _ _ Hin).
    by apply parse_block_no_match.
  - intros before after result. by apply parse_block_json_item.
  - intros before after result. by apply parse_block_json_item.
  - vm_compute. reflexivity.
Qed.

Lemma parse_block_json_rejects_malformed_tables_witness :
  parse_block_json [("1:0", "minecraft:stone"); ("1:0:0", "minecraft:dirt")]
    = Raise ValueError /\
  parse_block_json [("1:0", "minecraft:stone"); ("2:0", "minecraft:wood[")]
    = Raise ValueError /\
  example_table !! (1, 0) =
    Some {| namespace := "minecraft"; name := "stone"; properties := ∅ |} /\
  example_table !! (5, 2) =
    Some {| namespace := "minecraft"; name := "wood";
            properties := {[ "variant" := "birch" ]} |}.
Proof.
  destruct parse_block_json_rejects_malformed_tables
    as (Hkey & Hvalue & Hstone & Hwood & Hrun).
  split_and!.
  - apply (Hkey _ "1:0:0" "minecraft:dirt").
    + apply list_elem_of_In. right. left. reflexivity.
    + vm_compute. lia.
  - apply (Hvalue _ "2:0" "minecraft:wood[").
    + apply list_elem_of_In. right. left. reflexivity.
    + reflexivity.
  - apply (Hstone [] [("5:2", "minecraft:wood[variant=birch]")]
             example_table Hrun).
    constructor; [|constructor]. intros block_id' block'.
    vm_compute. congruence.
  - apply (Hwood [("1:0", "minecraft:stone")] [] example_table Hrun).
    constructor.
Defined.

(** * Further properties of the code *)

(** ** fix_cdb_index beyond the repair itself *)

Section IndexRepairEdges.
Context `{P : Parser} `{C : !IndexCodec}.
Implicit Types (world : World) (e : IndexEntry) (index : list IndexEntry).

Lemma py_index_head {A} (l : list A) :
  py_index l 0 = or_raise IndexError (head l).
Proof. by destruct l. Qed.

Lemma fix_entry_first_candidate w1 w2 e n :
  (forall s f, cdb w1 s f = cdb w2 s f) ->
  (forall pos, head <$> recovered w1 !! pos = head <$> recovered w2 !! pos) ->
  fix_entry w1 e n = fix_entry w2 e n.
Proof.
  intros Hcdb Hhead. unfold fix_entry.
  specialize (Hhead (parse_position (position e))).
  destruct (recovered w1 !! _) as [l1|], (recovered w2 !! _) as [l2|];
    try done.
  rewrite !py_index_head. injection Hhead as ->.
  destruct (head l2) as [[s f]|]; [|done]. run_result. by rewrite Hcdb.
Qed.

(** X1: when no entry of the index has its position in the recovered set,
    fix_cdb_index returns 0 and does not write the index file: the files
    are left as they were. *)
Theorem fix_cdb_index_nothing_recovered
    (fs : gmap string (list Z)) path world data index :
  fs !! path = Some data ->
  Index_parse data = Ok index ->
  Forall (fun e => recovered world !! parse_position (position e) = None)
    index ->
  fix_cdb_index fs path world = Ok (0, fs).
Proof.
  intros Hfile Hparse Hnone. unfold fix_cdb_index. rewrite Hfile. run_result.
  by rewrite Hparse, (fix_entries_untouched _ _ _ Hnone).
Qed.

(** X2: only the first candidate of a position is ever read: two worlds
    with the same record headers whose recovered sets have the same keys
    and the same first candidate for each key give the same result, error
    or not, whatever the later candidates are. *)
Theorem fix_cdb_index_first_candidate_only
    (fs : gmap string (list Z)) path w1 w2 :
  (forall s f, cdb w1 s f = cdb w2 s f) ->
  (forall pos, head <$> recovered w1 !! pos = head <$> recovered w2 !! pos) ->
  fix_cdb_index fs path w1 = fix_cdb_index fs path w2.
Proof.
  intros Hcdb Hhead. unfold fix_cdb_index.
  destruct (fs !! path) as [data|]; [|done]. run_result.
  destruct (Index_parse data) as [index|]; [|done].
  enough (forall n, fix_entries w1 index n = fix_entries w2 index n) as ->
    by done.
  induction index as [|e index IH]; intros n; [done|]. cbn [fix_entries].
  rewrite (fix_entry_first_candidate w1 w2 e n Hcdb Hhead).
  destruct (fix_entry w2 e n) as [[e' n']|]; [|done]. run_result.
  by rewrite IH.
Qed.

Lemma fix_entries_positions world index : forall n index' m,
  fix_entries world index n = Ok (index', m) ->
  Forall2 (fun e e' => position e' = position e) index index' /\
  n <= m <= n + Z.of_nat (length index).
Proof.
  induction index as [|e index IH]; intros n index' m; cbn [fix_entries].
  - intros [= <- <-]. split; [constructor|cbn; lia].
  - destruct (fix_entry world e n) as [[e' n']|] eqn:He; [|discriminate].
    run_result.
    destruct (fix_entries world index n') as [[rest m']|] eqn:Hrest;
      [|discriminate].
    intros [= <- <-]. apply fix_entry_inv in He as [Hpos He].
    destruct (IH _ _ _ Hrest) as [Hrel Hm]. split; [by constructor|].
    cbn [length].
    destruct (recovered world !! parse_position (position e)).
    + destruct He as (s & f & more & _ & -> & _). lia.
    + destruct He as [_ ->]. lia.
Qed.

(** X3: a run of fix_cdb_index that returns leaves every file other than
    the index as it was; the count is between 0 and the number of entries;
    and when the count is not 0 the index file holds the serialisation of as
    many entries as before, in the same order and at the same positions,
    while a count of 0 means no file was written. *)
Theorem fix_cdb_index_keeps_positions_and_other_files
    (fs fs' : gmap string (list Z)) path world n :
  fix_cdb_index fs path world = Ok (n, fs') ->
  (forall other, other <> path -> fs' !! other = fs !! other) /\
  exists data index index',
    fs !! path = Some data /\ Index_parse data = Ok index /\
    0 <= n <= Z.of_nat (length index) /\
    Forall2 (fun e e' => position e' = position e) index index' /\
    (n = 0 -> fs' = fs) /\
    (n <> 0 -> fs' !! path = Some (Index_dumps index')).
Proof.
  unfold fix_cdb_index.
  destruct (fs !! path) as [data|] eqn:Hfile; [|discriminate]. run_result.
  destruct (Index_parse data) as [index|] eqn:Hparse; [|discriminate].
  destruct (fix_entries world index 0) as [[index' m]|] eqn:Hrun;
    [|discriminate].
  destruct (fix_entries_positions _ _ _ _ _ Hrun) as [Hrel Hm].
  unfold truthy. destruct (Z.eqb_spec m 0) as [Hzero|Hzero]; cbn;
    intros [= <- <-].
  - split; [done|]. exists data, index, index'. split_and!; try done; lia.
  - split; [intros other Hne; by rewrite lookup_insert_ne|].
    exists data, index, index'. split_and!; try done; try lia.
    intros _. apply lookup_insert_eq.
Qed.

(** X4: when the entries before one are repaired without error and that
    one has its position in the recovered set with an empty list of
    candidates, fix_cdb_index raises IndexError; when instead the header of
    its first candidate cannot be read, the exception of that read comes
    out.  In both cases nothing is written, the earlier repairs included. *)
Theorem fix_cdb_index_raises_at_bad_candidate
    (fs : gmap string (list Z)) path world data pre e post pre' m :
  fs !! path = Some data ->
  Index_parse data = Ok (pre ++ e :: post) ->
  fix_entries world pre 0 = Ok (pre', m) ->
  (recovered world !! parse_position (position e) = Some [] ->
   fix_cdb_index fs path world = Raise IndexError) /\
  (forall s f rest exn,
     recovered world !! parse_position (position e) = Some ((s, f) :: rest) ->
     cdb world s f = Raise exn ->
     fix_cdb_index fs path world = Raise exn).
Proof.
  intros Hfile Hparse Hpre. unfold fix_cdb_index. rewrite Hfile. run_result.
  rewrite Hparse, (fix_entries_app _ _ _ _ _ _ Hpre). cbn [fix_entries].
  unfold fix_entry. split.
  - intros ->. by rewrite py_index_empty.
  - intros s f rest exn -> Hcdb. rewrite py_index_first. run_result.
    by rewrite Hcdb.
Qed.

End IndexRepairEdges.

Lemma fix_cdb_index_nothing_recovered_witness :
  @fix_cdb_index example_parser example_codec
    (example_files [example_entry_other]) example_path example_world
    = Ok (0, example_files [example_entry_other]).
Proof.
  apply (@fix_cdb_index_nothing_recovered example_parser example_codec
           _ _ _ (example_dumps [example_entry_other]) [example_entry_other]).
  - reflexivity.
  - reflexivity.
  - constructor; [reflexivity|constructor].
Defined.

Lemma fix_cdb_index_first_candidate_only_witness :
  @fix_cdb_index example_parser example_codec
    (example_files [example_entry]) example_path example_world
  = @fix_cdb_index example_parser example_codec
      (example_files [example_entry]) example_path example_world_two_copies.
Proof.
  apply (@fix_cdb_index_first_candidate_only example_parser example_codec).
  - reflexivity.
  - intros pos. cbn.
    destruct (decide (pos = (5, 5, OVERWORLD))) as [->|Hne].
    + by rewrite !lookup_singleton_eq.
    + by rewrite !lookup_singleton_ne.
Defined.

Lemma fix_cdb_index_keeps_positions_and_other_files_witness :
  (forall other, other <> example_path ->
     example_files [example_entry_other; example_entry_fixed] !! other
     = example_files [example_entry_other; example_entry] !! other) /\
  example_files [example_entry_other; example_entry_fixed] !! example_path
    = Some (example_dumps [example_entry_other; example_entry_fixed]).
Proof.
  destruct (@fix_cdb_index_keeps_positions_and_other_files
              example_parser example_codec
              (example_files [example_entry_other; example_entry])
              (example_files [example_entry_other; example_entry_fixed])
              example_path example_world 1)
    as (Hother & _).
  - reflexivity.
  - split; [exact Hother|reflexivity].
Defined.

Lemma fix_cdb_index_raises_at_bad_candidate_witness :
  @fix_cdb_index example_parser example_codec
    (example_files [example_entry_other; example_entry]) example_path
    example_world_no_copy
  = Raise IndexError /\
  @fix_cdb_index example_parser example_codec
    (example_files [example_entry_other; example_entry]) example_path
    example_world_unreadable
  = Raise KeyError.
Proof.
  split.
  - apply (@fix_cdb_index_raises_at_bad_candidate
             example_parser example_codec
             _ example_path example_world_no_copy
             (example_dumps [example_entry_other; example_entry])
             [example_entry_other] example_entry [] [example_entry_other] 0).
    + reflexivity.
    + reflexivity.
    + reflexivity.
    + reflexivity.
  - apply (proj2 (@fix_cdb_index_raises_at_bad_candidate
             example_parser example_codec
             (example_files [example_entry_other; example_entry])
             example_path example_world_unreadable
             (example_dumps [example_entry_other; example_entry])
             [example_entry_other] example_entry [] [example_entry_other] 0
             eq_refl eq_refl eq_refl) 7 7 []).
    + reflexivity.
    + reflexivity.
Defined.

(** ** What place_blocks leaves in the chunk *)

Lemma for_each_app {S A} (l1 l2 : list A) (body : A -> Stateful S unit) s :
  for_each (l1 ++ l2) body s =
    match for_each l1 body s with
    | (Ok _, s') => for_each l2 body s'
    | (Raise e, s') => (Raise e, s')
    end.
Proof.
  revert s. induction l1 as [|a l1 IH]; intros s; [done|].
  cbn [app for_each]. unfold mbind, Stateful_bind.
  destruct (body a s) as [[[]|e] s1]; [apply IH|done].
Qed.

Lemma for_each_bind {S A B} (l : list A) (f : A -> list B)
    (body : B -> Stateful S unit) s :
  for_each (l ≫= f) body s = for_each l (fun a => for_each (f a) body) s.
Proof.
  revert s. induction l as [|a l IH]; intros s; [done|].
  rewrite bind_cons, for_each_app. cbn [for_each].
  unfold mbind at 2. unfold Stateful_bind.
  destruct (for_each (f a) body s) as [[[]|e] s1]; [apply IH|done].
Qed.

Lemma for_each_fmap {S A B} (l : list A) (g : A -> B)
    (body : B -> Stateful S unit) s :
  for_each (g <$> l) body s = for_each l (fun a => body (g a)) s.
Proof.
  revert s. induction l as [|a l IH]; intros s; [done|].
  rewrite fmap_cons. cbn [for_each]. unfold mbind, Stateful_bind.
  destruct (body (g a) s) as [[[]|e] s1]; [apply IH|done].
Qed.

Lemma for_each_ext {S A} (l : list A) (body1 body2 : A -> Stateful S unit) s :
  (forall a t, a ∈ l -> body1 a t = body2 a t) ->
  for_each l body1 s = for_each l body2 s.
Proof.
  revert s. induction l as [|a l IH]; intros s Hext; [done|].
  cbn [for_each]. unfold mbind, Stateful_bind.
  rewrite (Hext a s) by left.
  destruct (body2 a s) as [[[]|e] s1]; [|done].
  apply IH. intros b t Hb. apply Hext. by right.
Qed.

(** The state in which [place_blocks] starts its loops. *)
Local Abbreviation start_state self err :=
  {| chunk := {| chunk_x := region_x self; chunk_z := region_z self;
                 cells := ∅ |};
     stderr := err |}.

(** The two loops as one loop over the traversal. *)
Lemma place_blocks_traversal self entry0 err :
  entry self = Some entry0 ->
  place_blocks self err =
    for_each (traversal entry0)
      (fun '(subchunk_y, subchunk, position, block) =>
         place_cell self subchunk_y subchunk position block)
      (start_state self err).
Proof.
  intros Hentry. unfold place_blocks, traversal. rewrite Hentry. cbn [andb].
  rewrite for_each_bind. apply for_each_ext.
  intros [subchunk_y subchunk] t _. rewrite for_each_fmap.
  apply for_each_ext. by intros [position0 block] ? _.
Qed.

Lemma enumerate_from_elem_of {A} (l : list A) : forall i j a,
  i <= j -> l !! Z.to_nat (j - i) = Some a -> (j, a) ∈ enumerate_from i l.
Proof.
  induction l as [|b l IH]; intros i j a Hij Hl; [done|].
  cbn [enumerate_from]. destruct (decide (j = i)) as [->|Hne].
  - rewrite Z.sub_diag in Hl. injection Hl as ->. left.
  - right. apply IH; [lia|].
    replace (Z.to_nat (j - i)) with (S (Z.to_nat (j - (i + 1)))) in Hl by lia.
    done.
Qed.

Lemma elem_of_traversal entry0 subchunk_y subchunk position block :
  (subchunk_y, subchunk, position, block) ∈ traversal entry0 <->
  0 <= subchunk_y /\
  Entry.blocks entry0 !! Z.to_nat subchunk_y = Some subchunk /\
  0 <= position < 0x1000 /\
  subchunk !! Z.to_nat position = Some block.
Proof.
  unfold traversal. rewrite list_elem_of_bind. split.
  - intros ([sy sc] & Hin & Hsub). apply list_elem_of_fmap in Hin
      as ([p b] & [= -> -> -> ->] & Hcell).
    apply elem_of_enumerate_from in Hsub as [Hsy Hsc].
    apply elem_of_enumerate_from in Hcell as [Hp Hb].
    rewrite Z.sub_0_r in Hsc, Hb. rewrite length_take in Hp.
    rewrite lookup_take in Hb. case_decide; [|done].
    split; [lia|]. split; [done|]. split; [lia|done].
  - intros (Hsy & Hsc & Hp & Hb). exists (subchunk_y, subchunk). split.
    + apply list_elem_of_fmap. exists (position, block). split; [done|].
      apply enumerate_from_elem_of; [lia|]. rewrite Z.sub_0_r.
      rewrite lookup_take. rewrite decide_True by lia. done.
    + apply enumerate_from_elem_of; [done|]. by rewrite Z.sub_0_r.
Qed.

Lemma traversal_cells entry0 :
  (fun '(subchunk_y, _, position, _) =>
     cell_coordinates subchunk_y position) <$> traversal entry0
  = visited_cells entry0.
Proof.
  unfold traversal, visited_cells.
  induction (enumerate (Entry.blocks entry0)) as [|[sy sc] l IH]; [done|].
  rewrite !bind_cons, fmap_app, IH. f_equal.
  rewrite <- list_fmap_compose. apply list_fmap_ext. by intros ? [p b].
Qed.

(** A loop whose body sets at most one cell, a different one each time, and
    prints: what the chunk and the diagnostics hold after it. *)
Lemma for_each_writes {A} (l : list A) (body : A -> Stateful PlaceState unit)
    (key : A -> Z * Z * Z) (val : A -> option Block)
    (out : A -> list Diagnostic) :
  (forall a s, a ∈ l ->
     exists s', body a s = (Ok tt, s') /\
       cells (chunk s') =
         match val a with
         | Some b => <[key a := b]> (cells (chunk s))
         | None => cells (chunk s)
         end /\
       stderr s' = stderr s ++ out a) ->
  NoDup (key <$> l) ->
  forall s, exists s',
    for_each l body s = (Ok tt, s') /\
    stderr s' = stderr s ++ (l ≫= out) /\
    (forall a, a ∈ l ->
       cells (chunk s') !! key a =
         match val a with
         | Some b => Some b
         | None => cells (chunk s) !! key a
         end) /\
    (forall k, k ∉ key <$> l -> cells (chunk s') !! k = cells (chunk s) !! k).
Proof.
  induction l as [|a l IH]; intros Hbody Hkeys s.
  - exists s. split; [done|]. split; [by rewrite app_nil_r|].
    split; [by intros a ?%elem_of_nil|done].
  - rewrite fmap_cons in Hkeys. apply NoDup_cons in Hkeys as [Hfresh Hkeys].
    destruct (Hbody a s) as (s1 & Hrun1 & Hcells1 & Herr1); [left|].
    destruct (IH (fun b t Hb => Hbody b t (list_elem_of_further _ _ _ Hb))
                Hkeys s1) as (s2 & Hrun2 & Herr2 & Hin2 & Hout2).
    assert (forall k, k <> key a ->
              cells (chunk s1) !! k = cells (chunk s) !! k) as Hother.
    { intros k Hk. rewrite Hcells1. destruct (val a); [|done].
      by rewrite lookup_insert_ne. }
    exists s2. split_and!.
    + cbn [for_each]. unfold mbind, Stateful_bind. by rewrite Hrun1.
    + by rewrite Herr2, Herr1, bind_cons, app_assoc.
    + intros b [->|Hb]%elem_of_cons.
      * rewrite (Hout2 _ Hfresh), Hcells1.
        destruct (val a); [by rewrite lookup_insert_eq|done].
      * rewrite (Hin2 _ Hb). destruct (val b); [done|].
        apply Hother. intros Heq. apply Hfresh. rewrite <- Heq.
        apply list_elem_of_fmap. by exists b.
    + intros k Hk. rewrite fmap_cons in Hk.
      apply not_elem_of_cons in Hk as [Hne Hk].
      rewrite (Hout2 _ Hk). by apply Hother.
Qed.

(** The block a cell of the traversal is set to, if it is set. *)
Local Abbreviation cell_value self :=
  (fun '(subchunk_y, subchunk, position, block) =>
     match data_nibble subchunk position with
     | Ok data =>
         if decide ((block, data) = (0, 0)) then None
         else Some (default unknown_block_substitute
                      (blocks self !! (block, data)))
     | Raise _ => None
     end).

(** The lines a cell of the traversal adds to the diagnostics. *)
Local Abbreviation cell_output self :=
  (fun '(subchunk_y, subchunk, position, block) =>
     match data_nibble subchunk position with
     | Ok data =>
         if decide ((block, data) = (0, 0)) then []
         else match blocks self !! (block, data) with
              | Some _ => []
              | None =>
                  [ {| unknown_block := (block, data);
                       at_cell := cell_coordinates subchunk_y position;
                       in_dimension := dimension self |} ]
              end
     | Raise _ => []
     end).

Lemma place_cell_effect self subchunk_y subchunk position block s :
  0 <= subchunk_y < 16 -> 0 <= position < 0x1000 ->
  0x1800 <= Z.of_nat (length subchunk) ->
  exists s',
    place_cell self subchunk_y subchunk position block s = (Ok tt, s') /\
    cells (chunk s') =
      match cell_value self (subchunk_y, subchunk, position, block) with
      | Some b =>
          <[cell_coordinates subchunk_y position := b]> (cells (chunk s))
      | None => cells (chunk s)
      end /\
    stderr s' =
      stderr s ++ cell_output self (subchunk_y, subchunk, position, block).
Proof.
  intros Hs Hp Hlen.
  destruct (data_nibble_total subchunk position Hp Hlen) as (byte & _ & Hd).
  rewrite Hd. case_decide as Hpair.
  - injection Hpair as -> Hzero. rewrite Hzero in Hd.
    exists s. split; [by apply place_cell_air|]. by rewrite app_nil_r.
  - rewrite (place_cell_block _ _ _ _ _ _ _ Hs Hp Hd Hpair).
    destruct (blocks self !! _) as [known|]; eexists; (split; [done|]); cbn.
    + by rewrite app_nil_r.
    + done.
Qed.

Lemma place_blocks_outcome self entry0 err :
  entry self = Some entry0 ->
  (length (Entry.blocks entry0) <= 16)%nat ->
  Forall (fun subchunk => 0x1800 <= Z.of_nat (length subchunk))
    (Entry.blocks entry0) ->
  exists s,
    place_blocks self err = (Ok tt, s) /\
    stderr s = err ++ (traversal entry0 ≫= cell_output self) /\
    (forall c, c ∈ traversal entry0 ->
       cells (chunk s) !! cell_coordinates c.1.1.1 c.1.2 = cell_value self c) /\
    (forall cell, cell ∉ visited_cells entry0 ->
       cells (chunk s) !! cell = None).
Proof.
  intros Hentry Hcount Hall. rewrite (place_blocks_traversal _ _ _ Hentry).
  destruct (for_each_writes (traversal entry0)
    (fun '(subchunk_y, subchunk, position, block) =>
       place_cell self subchunk_y subchunk position block)
    (fun '(subchunk_y, _, position, _) =>
       cell_coordinates subchunk_y position)
    (cell_value self) (cell_output self)) with (s := start_state self err)
    as (s & Hrun & Herr & Hin & Hout).
  - intros [[[sy sc] p] b] t (Hsy & Hsc & Hp & Hb)%elem_of_traversal.
    apply place_cell_effect; [|done|].
    + apply lookup_lt_Some in Hsc. lia.
    + rewrite Forall_forall in Hall.
      by apply Hall, list_elem_of_lookup_2 with (Z.to_nat sy).
  - rewrite traversal_cells, visited_cells_grid; [apply NoDup_grid|].
    eapply Forall_impl; [exact Hall|]. cbn. lia.
  - exists s. split; [done|]. split; [done|]. split.
    + intros [[[sy sc] p] b] Hc. cbn [fst snd]. rewrite (Hin _ Hc).
      destruct (data_nibble sc p) as [d|]; [|done]. by case_decide.
    + intros cell Hcell. rewrite Hout; [done|]. by rewrite traversal_cells.
Qed.

(** X5: for an entry of at most 16 subchunks, each holding its 4096 block
    ids and 2048 data bytes, place_blocks returns, and the chunk it leaves
    is the decoding of the entry: the cell of every position of every
    subchunk holds the block the table gives for the pair of the byte at
    the position and its data value, the netherite block when the table has
    none, and nothing when the pair is (0, 0); no other cell is set. *)
Theorem place_blocks_decodes_every_cell self entry0 err :
  entry self = Some entry0 ->
  (length (Entry.blocks entry0) <= 16)%nat ->
  Forall (fun subchunk => 0x1800 <= Z.of_nat (length subchunk))
    (Entry.blocks entry0) ->
  exists s,
    place_blocks self err = (Ok tt, s) /\
    (forall subchunk_y subchunk position block data,
       0 <= subchunk_y ->
       Entry.blocks entry0 !! Z.to_nat subchunk_y = Some subchunk ->
       0 <= position < 0x1000 ->
       subchunk !! Z.to_nat position = Some block ->
       data_nibble subchunk position = Ok data ->
       cells (chunk s) !! cell_coordinates subchunk_y position =
         if decide ((block, data) = (0, 0)) then None
         else Some (default unknown_block_substitute
                      (blocks self !! (block, data)))) /\
    (forall cell, cell ∉ visited_cells entry0 ->
       cells (chunk s) !! cell = None).
Proof.
  intros Hentry Hcount Hall.
  destruct (place_blocks_outcome self entry0 err Hentry Hcount Hall)
    as (s & Hrun & _ & Hin & Hout).
  exists s. split; [done|]. split; [|done].
  intros sy sc p b d Hsy Hsc Hp Hb Hd.
  assert ((sy, sc, p, b) ∈ traversal entry0) as Hc
    by by apply elem_of_traversal.
  apply Hin in Hc. cbn [fst snd] in Hc. by rewrite Hc, Hd.
Qed.

(** X6: on such an entry the diagnostics after place_blocks are those
    before it followed by one line for each cell of the traversal, in its
    order, whose pair is neither (0, 0) nor in the table, and no other
    line. *)
Theorem place_blocks_prints_one_line_per_unknown_cell self entry0 err :
  entry self = Some entry0 ->
  (length (Entry.blocks entry0) <= 16)%nat ->
  Forall (fun subchunk => 0x1800 <= Z.of_nat (length subchunk))
    (Entry.blocks entry0) ->
  stderr (place_blocks self err).2 =
    err ++ (traversal entry0 ≫=
      fun '(subchunk_y, subchunk, position, block) =>
        match data_nibble subchunk position with
        | Ok data =>
            if decide ((block, data) = (0, 0)) then []
            else match blocks self !! (block, data) with
                 | Some _ => []
                 | None =>
                     [ {| unknown_block := (block, data);
                          at_cell := cell_coordinates subchunk_y position;
                          in_dimension := dimension self |} ]
                 end
        | Raise _ => []
        end).
Proof.
  intros Hentry Hcount Hall.
  destruct (place_blocks_outcome self entry0 err Hentry Hcount Hall)
    as (s & -> & Herr & _). exact Herr.
Qed.

Lemma place_blocks_decodes_every_cell_witness :
  exists s,
    place_blocks example_stone_converter [] = (Ok tt, s) /\
    cells (chunk s) !! (0, 0, 0) =
      Some {| namespace := "minecraft"; name := "stone"; properties := ∅ |} /\
    cells (chunk s) !! (0, 1, 0) = None /\
    cells (chunk s) !! (0, 16, 0) = None.
Proof.
  destruct (place_blocks_decodes_every_cell example_stone_converter
              example_stone_entry []) as (s & Hrun & Hin & Hout).
  - reflexivity.
  - cbn. lia.
  - constructor; [|constructor]. cbn [length example_stone_subchunk].
    rewrite length_replicate. lia.
  - exists s. split; [exact Hrun|]. split_and!.
    + refine (eq_trans (Hin 0 example_stone_subchunk 0 1 0 _ _ _ _ _) _).
      * lia.
      * reflexivity.
      * lia.
      * reflexivity.
      * reflexivity.
      * reflexivity.
    + refine (eq_trans (Hin 0 example_stone_subchunk 1 0 0 _ _ _ _ _) _).
      * lia.
      * reflexivity.
      * lia.
      * reflexivity.
      * reflexivity.
      * reflexivity.
    + apply Hout. intros Hin16.
      rewrite visited_cells_grid in Hin16.
      * apply elem_of_grid in Hin16 as (sy & p & Hsy & Hp & Hc).
        rewrite cell_coordinates_div_mod in Hc. injection Hc as Hx Hy Hz.
        cbn in Hsy. revert Hx Hy Hz Hsy Hp. clear.
        Z.to_euclidean_division_equations. lia.
      * constructor; [|constructor]. cbn [length example_stone_subchunk].
        rewrite length_replicate. lia.
Defined.

Lemma place_blocks_prints_one_line_per_unknown_cell_witness :
  stderr (place_blocks example_unknown_converter []).2 =
    [ {| unknown_block := (1, 0); at_cell := (0, 0, 0);
         in_dimension := OVERWORLD |} ].
Proof.
  refine (eq_trans (place_blocks_prints_one_line_per_unknown_cell
                      example_unknown_converter example_stone_entry [] _ _ _) _).
  - reflexivity.
  - cbn. lia.
  - constructor; [|constructor]. cbn [length example_stone_subchunk].
    rewrite length_replicate. lia.
  - vm_compute. reflexivity.
Defined.

(** ** What place_blocks keeps, whatever the entry *)

Lemma for_each_invariant {S A} (I : S -> Prop) (l : list A)
    (body : A -> Stateful S unit) :
  (forall a s, I s -> I (body a s).2) ->
  forall s, I s -> I (for_each l body s).2.
Proof.
  intros Hbody. induction l as [|a l IH]; intros s Hs; [done|].
  cbn [for_each]. unfold mbind, Stateful_bind.
  specialize (Hbody a s Hs).
  destruct (body a s) as [[[]|e] s1]; [by apply IH|done].
Qed.

(** The chunk is the one created for the converter, its cells are inside
    it and hold blocks of the table or the substitute, and the diagnostics
    extend those there were. *)
Local Abbreviation placed_well self err s :=
  (chunk_x (chunk s) = region_x self /\
   chunk_z (chunk s) = region_z self /\
   err `prefix_of` stderr s /\
   forall x y z b,
     cells (chunk s) !! (x, y, z) = Some b ->
     (0 <= x < 16 /\ 0 <= y < 256 /\ 0 <= z < 16) /\
     (b = unknown_block_substitute \/ exists id, blocks self !! id = Some b)).

Lemma set_block_placed_well self err block x y z s :
  (block = unknown_block_substitute \/
   exists id, blocks self !! id = Some block) ->
  placed_well self err s -> placed_well self err (set_block block x y z s).2.
Proof.
  intros Hblock (Hx & Hz & Herr & Hcells). unfold set_block.
  destruct ((x <? 0) || (15 <? x) || (z <? 0) || (15 <? z) || (y <? 0)
            || (255 <? y)) eqn:Hout; [done|].
  cbn. split_and!; try done. intros x' y' z' b.
  destruct (decide ((x, y, z) = (x', y', z'))) as [[= <- <- <-]|Hne].
  - rewrite lookup_insert_eq. intros [= <-]. split; [lia|done].
  - rewrite lookup_insert_ne by done. apply Hcells.
Qed.

Lemma place_cell_placed_well self err subchunk_y subchunk position block s :
  placed_well self err s ->
  placed_well self err
    (place_cell self subchunk_y subchunk position block s).2.
Proof.
  intros Hs. unfold place_cell.
  destruct (cell_coordinates subchunk_y position) as [[x y] z].
  run_stateful. destruct (data_nibble subchunk position) as [d|]; [|done].
  case_bool_decide; [|done]. unfold translate.
  destruct (blocks self !! (block, d)) as [known|] eqn:Hknown; run_stateful.
  - apply set_block_placed_well; [right; eauto|done].
  - apply set_block_placed_well; [by left|].
    destruct Hs as (Hx & Hz & Herr & Hcells). split_and!; try done.
    cbn. by apply prefix_app_r.
Qed.

Lemma place_blocks_placed_well self err :
  placed_well self err (place_blocks self err).2.
Proof.
  assert (placed_well self err (start_state self err)) as Hstart.
  { by split_and!. }
  unfold place_blocks. cbn [andb].
  destruct (entry self) as [entry0|]; [|exact Hstart].
  apply (for_each_invariant (fun s => placed_well self err s)); [|done].
  intros [subchunk_y subchunk] s Hs.
  apply (for_each_invariant (fun s => placed_well self err s)); [|done].
  intros [position block] t Ht. by apply place_cell_placed_well.
Qed.

(** X7: whatever the entry and however place_blocks ends, with or without
    an exception, the chunk is the one of the converter's coordinates, every
    cell set lies within 16 x 256 x 16 and holds a block of the table or the
    netherite block, and the diagnostics only grew. *)
Theorem place_blocks_sets_table_blocks_in_bounds self err :
  chunk_x (chunk (place_blocks self err).2) = region_x self /\
  chunk_z (chunk (place_blocks self err).2) = region_z self /\
  err `prefix_of` stderr (place_blocks self err).2 /\
  forall x y z b,
    cells (chunk (place_blocks self err).2) !! (x, y, z) = Some b ->
    (0 <= x < 16 /\ 0 <= y < 256 /\ 0 <= z < 16) /\
    (b = {| namespace := "minecraft"; name := "netherite_block";
            properties := ∅ |}
     \/ exists id, blocks self !! id = Some b).
Proof. exact (place_blocks_placed_well self err). Qed.

Lemma place_blocks_sets_table_blocks_in_bounds_witness :
  (0 <= 0 < 16 /\ 0 <= 0 < 256 /\ 0 <= 0 < 16) /\
  ({| namespace := "minecraft"; name := "stone"; properties := ∅ |}
     = {| namespace := "minecraft"; name := "netherite_block";
          properties := ∅ |}
   \/ exists id,
        blocks example_stone_converter !! id =
          Some {| namespace := "minecraft"; name := "stone";
                  properties := ∅ |}).
Proof.
  apply (proj2 (proj2 (proj2
           (place_blocks_sets_table_blocks_in_bounds
              example_stone_converter []))) 0 0 0).
  vm_compute. reflexivity.
Defined.

(** ** A subchunk that is too short *)

Lemma for_each_raises {S A} (l1 l2 : list A) (a : A)
    (body : A -> Stateful S unit) e :
  (forall b s, b ∈ l1 -> exists s', body b s = (Ok tt, s')) ->
  (forall s, (body a s).1 = Raise e) ->
  forall s, (for_each (l1 ++ a :: l2) body s).1 = Raise e.
Proof.
  intros Hbefore Hraise s. rewrite for_each_app.
  destruct (for_each_returns l1 body Hbefore s) as [s1 ->].
  cbn [for_each]. unfold mbind, Stateful_bind.
  specialize (Hraise s1). by destruct (body a s1) as [[[]|e'] s2]; cbn in *.
Qed.

Lemma enumerate_from_app {A} (l1 l2 : list A) : forall i,
  enumerate_from i (l1 ++ l2) =
    enumerate_from i l1 ++ enumerate_from (i + Z.of_nat (length l1)) l2.
Proof.
  induction l1 as [|a l1 IH]; intros i; cbn [app enumerate_from length].
  - by rewrite Z.add_0_r.
  - rewrite IH. do 3 f_equal. lia.
Qed.

Lemma data_nibble_out_of_range subchunk position :
  0 <= position ->
  Z.of_nat (length subchunk) <= 0x1000 + position `div` 2 ->
  data_nibble subchunk position = Raise IndexError.
Proof.
  intros Hp Hlen. unfold data_nibble, py_index.
  assert (0 <= position `div` 2) by (Z.to_euclidean_division_equations; lia).
  rewrite (proj2 (Z.ltb_ge (0x1000 + position `div` 2) 0)) by lia. cbn zeta.
  rewrite (proj2 (Z.ltb_ge (0x1000 + position `div` 2) 0)) by lia.
  by rewrite lookup_ge_None_2 by lia.
Qed.

Lemma place_cell_returns_with_data self subchunk_y subchunk position block s :
  0 <= subchunk_y < 16 -> 0 <= position < 0x1000 ->
  is_Some (subchunk !! Z.to_nat (0x1000 + position `div` 2)) ->
  exists s', place_cell self subchunk_y subchunk position block s = (Ok tt, s').
Proof.
  intros Hs Hp [byte Hbyte].
  pose proof (data_nibble_lookup subchunk position byte (proj1 Hp) Hbyte)
    as Hd.
  destruct (decide ((block,
    if position `mod` 2 =? 0 then Z.land byte 0xF else Z.shiftr byte 4)
    = (0, 0))) as [[= -> Hzero]|Hne].
  - rewrite Hzero in Hd. exists s. by apply place_cell_air.
  - rewrite (place_cell_block _ _ _ _ _ _ _ Hs Hp Hd Hne).
    destruct (blocks self !! _); eauto.
Qed.

(** X8: when the first subchunk of the entry is not empty and has fewer
    than 0x1800 bytes, place_blocks raises IndexError: the data byte of one
    of its first 4096 cells lies beyond its end. *)
Theorem place_blocks_short_subchunk_raises self subchunk rest err :
  entry self = Some {| Entry.blocks := subchunk :: rest |} ->
  0 < Z.of_nat (length subchunk) < 0x1800 ->
  (place_blocks self err).1 = Raise IndexError.
Proof.
  intros Hentry Hlen. unfold place_blocks. rewrite Hentry. cbn [andb].
  unfold enumerate at 1. cbn [Entry.blocks enumerate_from for_each].
  unfold mbind at 1. unfold Stateful_bind at 1.
  match goal with
  | |- (match ?inner with _ => _ end).1 = _ =>
      enough (inner.1 = Raise IndexError) as Hinner
        by (by destruct inner as [[[]|e] s1]; cbn in *; [|congruence])
  end.
  set (cut := Z.max 0 (2 * (Z.of_nat (length subchunk) - 0x1000))).
  assert (0 <= cut < 0x1000) as Hcut by lia.
  destruct (lookup_lt_is_Some_2 (take (Z.to_nat 0x1000) subchunk)
              (Z.to_nat cut)) as [block Hblock].
  { rewrite length_take. lia. }
  rewrite <- (take_drop_middle _ _ _ Hblock). unfold enumerate.
  rewrite enumerate_from_app. cbn [enumerate_from].
  apply for_each_raises.
  - intros [position block'] s [Hp _]%elem_of_enumerate_from.
    rewrite length_take, length_take in Hp.
    apply place_cell_returns_with_data; [lia|lia|].
    apply lookup_lt_is_Some_2. Z.to_euclidean_division_equations. lia.
  - intros s. rewrite length_take, length_take. unfold place_cell.
    destruct (cell_coordinates 0 _) as [[x y] z]. run_stateful.
    rewrite data_nibble_out_of_range; [done|lia|].
    Z.to_euclidean_division_equations. lia.
Qed.

Lemma place_blocks_short_subchunk_raises_witness :
  (place_blocks example_short_converter []).1 = Raise IndexError.
Proof.
  apply (place_blocks_short_subchunk_raises example_short_converter
           (replicate (Z.to_nat 0x1010) 0) []).
  - reflexivity.
  - rewrite length_replicate. lia.
Defined.

(** ** Region files *)

Lemma to_int_not_nil n :
  Z.to_int n <> Decimal.Pos Decimal.Nil /\
  Z.to_int n <> Decimal.Neg Decimal.Nil.
Proof.
  destruct n as [|p|p]; cbn; split; try discriminate;
    intros [= Hnil]; by apply DecimalPos.Unsigned.to_uint_nonnil in Hnil.
Qed.

Lemma format_d_inj n n' : format_d n = format_d n' -> n = n'.
Proof.
  unfold format_d. intros Heq. apply DecimalZ.to_int_inj.
  destruct (to_int_not_nil n) as [Hp Hn], (to_int_not_nil n') as [Hp' Hn'].
  pose proof (NilZero.isi _ Hp Hn) as H1.
  pose proof (NilZero.isi _ Hp' Hn') as H2.
  rewrite Heq in H1. congruence.
Qed.

(** No dot among the characters of a string. *)
Local Abbreviation dotless s :=
  (Forall (fun c : ascii => c <> "."%char) (list_ascii_of_string s)).

Lemma string_of_uint_dotless d : dotless (NilEmpty.string_of_uint d).
Proof. induction d; cbn; constructor; done. Qed.

Lemma format_d_dotless n : dotless (format_d n).
Proof.
  unfold format_d, NilZero.string_of_int, NilZero.string_of_uint.
  destruct (Z.to_int n) as [d|d]; [|constructor; [done|]];
    (destruct d; [by repeat constructor|apply string_of_uint_dotless..]).
Qed.

Lemma append_dot_inj a : forall a' r r',
  dotless a -> dotless a' ->
  a +:+ String "." r = a' +:+ String "." r' -> a = a' /\ r = r'.
Proof.
  induction a as [|c a IH]; intros [|c' a'] r r' Ha Ha'; cbn.
  - by intros [= ->].
  - intros [= <- _]. by inversion Ha'.
  - intros [= -> _]. by inversion Ha.
  - intros [= <- Heq]. inversion Ha; inversion Ha'; subst.
    destruct (IH a' r r') as [-> ->]; done.
Qed.

Lemma region_file_name_inj x z x' z' :
  "r." +:+ format_d x +:+ "." +:+ format_d z +:+ ".mca"
    = "r." +:+ format_d x' +:+ "." +:+ format_d z' +:+ ".mca" ->
  x = x' /\ z = z'.
Proof.
  cbn. intros [= Heq].
  apply append_dot_inj in Heq as [Hx Heq]; [|apply format_d_dotless..].
  apply append_dot_inj in Heq as [Hz _]; [|apply format_d_dotless..].
  split; by apply format_d_inj.
Qed.

(** X9: RegionConverter raises ValueError exactly for a dimension other
    than 0, 1 and 2; for the others the region file is region/r.X.Z.mca
    under the world directory, under its DIM-1 for the nether and under its
    DIM1 for the end, and two different positions never get the same
    file. *)
Theorem region_files_are_distinct world_directory :
  (forall x z d,
     RegionConverter.init world_directory (x, z, d) = Raise ValueError <->
     d <> OVERWORLD /\ d <> NETHER /\ d <> END) /\
  (forall x z d self,
     RegionConverter.init world_directory (x, z, d) = Ok self ->
     RegionConverter.region_file self =
       world_directory
         ++ (if d =? NETHER then ["DIM-1"] else if d =? END then ["DIM1"]
             else [])
         ++ ["region"; "r." +:+ format_d x +:+ "." +:+ format_d z +:+ ".mca"])
  /\
  (forall position position' self self',
     RegionConverter.init world_directory position = Ok self ->
     RegionConverter.init world_directory position' = Ok self' ->
     RegionConverter.region_file self = RegionConverter.region_file self' ->
     position = position').
Proof.
  unfold RegionConverter.init, OVERWORLD, NETHER, END. split_and!.
  - intros x z d.
    destruct (Z.eqb_spec d 0), (Z.eqb_spec d 1), (Z.eqb_spec d 2);
      run_result; split; (done || lia || (intros; exfalso; lia)).
  - intros x z d self.
    destruct (Z.eqb_spec d 0), (Z.eqb_spec d 1), (Z.eqb_spec d 2);
      run_result; try done; try lia; intros [= <-]; cbn;
      by rewrite <- ?app_assoc.
  - intros [[x z] d] [[x' z'] d'] self self'.
    destruct (Z.eqb_spec d 0), (Z.eqb_spec d 1), (Z.eqb_spec d 2);
      run_result; try done; try lia;
      destruct (Z.eqb_spec d' 0), (Z.eqb_spec d' 1), (Z.eqb_spec d' 2);
      run_result; try done; try lia;
      intros [= <-] [= <-]; cbn [RegionConverter.region_file];
      rewrite <- ?app_assoc; intros Heq; apply app_inv_head in Heq;
      try discriminate;
      apply (f_equal last) in Heq; apply (inj Some) in Heq;
      apply region_file_name_inj in Heq as [-> ->];
      f_equal; lia.
Qed.

Lemma region_files_are_distinct_witness :
  RegionConverter.init ["out"] (0, 0, 3) = Raise ValueError /\
  exists self self',
    RegionConverter.init ["out"] (-1, 2, NETHER) = Ok self /\
    RegionConverter.init ["out"] (-1, 2, END) = Ok self' /\
    RegionConverter.region_file self
      = ["out"; "DIM-1"; "region"; "r.-1.2.mca"] /\
    RegionConverter.region_file self <> RegionConverter.region_file self'.
Proof.
  destruct (region_files_are_distinct ["out"]) as (Hraise & Hfile & Hinj).
  split.
  - apply Hraise. unfold OVERWORLD, NETHER, END. lia.
  - do 2 eexists. split; [reflexivity|]. split; [reflexivity|]. split.
    + refine (eq_trans (Hfile (-1) 2 NETHER _ eq_refl) _). reflexivity.
    + intros Heq. apply (Hinj (-1, 2, NETHER) (-1, 2, END)) in Heq;
        [discriminate|reflexivity|reflexivity].
Defined.

(** ** Grouping the chunks by region *)

(** The slot of a chunk in its region. *)
Local Abbreviation slot_of x z := (z `mod` 32 * 32 + x `mod` 32).

(** The converter as [RegionConverter] builds it, before any chunk. *)
Local Abbreviation emptied rc :=
  {| RegionConverter.region_x := RegionConverter.region_x rc;
     RegionConverter.region_z := RegionConverter.region_z rc;
     RegionConverter.dimension := RegionConverter.dimension rc;
     RegionConverter.world_directory := RegionConverter.world_directory rc;
     RegionConverter.region_file := RegionConverter.region_file rc;
     RegionConverter.region :=
       {| EmptyRegion.x := EmptyRegion.x (RegionConverter.region rc);
          EmptyRegion.z := EmptyRegion.z (RegionConverter.region rc);
          EmptyRegion.chunks := ∅ |} |}.

(** Every converter of the dictionary is the one built for its key, and
    holds chunks of its region only, each at the slot of its coordinates. *)
Local Abbreviation grouped_well world_out cs st :=
  (forall rp rc,
     regions st !! rp = Some rc ->
     RegionConverter.init world_out rp = Ok (emptied rc) /\
     forall k ch,
       EmptyRegion.chunks (RegionConverter.region rc) !! k = Some ch ->
       k = slot_of (chunk_x ch) (chunk_z ch) /\
       exists c, c ∈ cs /\ region_position c = rp /\
         chunk_x ch = region_x c /\ chunk_z ch = region_z c).

Lemma RegionConverter_init_inv world_out rp rc :
  RegionConverter.init world_out rp = Ok rc ->
  emptied rc = rc /\
  EmptyRegion.x (RegionConverter.region rc) = rp.1.1 /\
  EmptyRegion.z (RegionConverter.region rc) = rp.1.2.
Proof.
  destruct rp as [[x z] d]. unfold RegionConverter.init.
  destruct (d =? OVERWORLD), (d =? NETHER), (d =? END); run_result;
    try discriminate; by intros [= <-].
Qed.

Lemma RegionConverter_add_chunk_inside rc ch :
  chunk_x ch `div` 32 = EmptyRegion.x (RegionConverter.region rc) ->
  chunk_z ch `div` 32 = EmptyRegion.z (RegionConverter.region rc) ->
  exists rc',
    RegionConverter.add_chunk rc ch = Ok rc' /\
    emptied rc' = emptied rc /\
    EmptyRegion.chunks (RegionConverter.region rc') =
      <[slot_of (chunk_x ch) (chunk_z ch) := ch]>
        (EmptyRegion.chunks (RegionConverter.region rc)).
Proof.
  intros Hx Hz. unfold RegionConverter.add_chunk, EmptyRegion.add_chunk.
  rewrite Hx, Hz, !Z.eqb_refl. run_result. by eexists.
Qed.

Lemma for_each_invariant_in {S A} (I : S -> Prop) (l : list A)
    (body : A -> Stateful S unit) :
  (forall a s, a ∈ l -> I s -> I (body a s).2) ->
  forall s, I s -> I (for_each l body s).2.
Proof.
  induction l as [|a l IH]; intros Hbody s Hs; [done|].
  cbn [for_each]. unfold mbind, Stateful_bind.
  pose proof (Hbody a s (list_elem_of_here _ _) Hs) as Hs1.
  destruct (body a s) as [[[]|e] s1]; [|done].
  apply IH; [|done]. intros b t Hb. apply Hbody. by right.
Qed.

Lemma convert_one_grouped_well world_out (cs : list ChunkConverter) c st :
  c ∈ cs ->
  grouped_well world_out cs st ->
  grouped_well world_out cs (convert_one world_out c st).2.
Proof.
  intros Hc Hst. unfold convert_one, convert_chunk.
  destruct (place_blocks_placed_well c (convert_stderr st))
    as (Hx & Hz & _).
  destruct (place_blocks c (convert_stderr st)) as [[[]|e] s]; [|done].
  cbn in Hx, Hz.
  assert (forall rc (regions' : gmap Position RegionConverter.t),
    RegionConverter.init world_out (region_position c) = Ok (emptied rc) ->
    (forall k ch,
       EmptyRegion.chunks (RegionConverter.region rc) !! k = Some ch ->
       k = slot_of (chunk_x ch) (chunk_z ch) /\
       exists c', c' ∈ cs /\ region_position c' = region_position c /\
         chunk_x ch = region_x c' /\ chunk_z ch = region_z c') ->
    grouped_well world_out cs
      {| regions := regions'; convert_stderr := stderr s |} ->
    grouped_well world_out cs
      (match RegionConverter.add_chunk rc (chunk s) with
       | Ok rc' =>
           (Ok tt, {| regions := <[region_position c := rc']> regions';
                      convert_stderr := stderr s |})
       | Raise e =>
           (Raise e, {| regions := regions'; convert_stderr := stderr s |})
       end).2) as Hadd.
  { intros rc regions' Hinit Hchunks Hrest.
    destruct (RegionConverter_init_inv _ _ _ Hinit) as (_ & Hrx & Hrz).
    destruct (RegionConverter_add_chunk_inside rc (chunk s))
      as (rc' & -> & Hempty & Hnew).
    { by rewrite Hx. } { by rewrite Hz. }
    cbn. intros rp rc1. destruct (decide (rp = region_position c)) as [->|Hne].
    - rewrite lookup_insert_eq. intros [= <-]. rewrite Hempty.
      split; [done|]. intros k ch. rewrite Hnew.
      destruct (decide (k = slot_of (chunk_x (chunk s)) (chunk_z (chunk s))))
        as [->|Hk].
      + rewrite lookup_insert_eq. intros [= <-]. split; [done|].
        by exists c.
      + rewrite lookup_insert_ne by done. apply Hchunks.
    - rewrite lookup_insert_ne by done. apply Hrest. }
  destruct (regions st !! region_position c) as [rc|] eqn:Hfound.
  - destruct (Hst _ _ Hfound) as [Hinit Hchunks]. cbn zeta.
    apply Hadd; done.
  - cbn zeta.
    destruct (RegionConverter.init world_out (region_position c))
      as [rc0|e] eqn:Hinit; unfold mbind, Result_bind; [|done].
    destruct (RegionConverter_init_inv _ _ _ Hinit) as (Hempty & _).
    apply Hadd.
    + by rewrite Hempty.
    + cbn. rewrite <- Hempty. cbn. intros k ch. by rewrite lookup_empty.
    + cbn. intros rp rc1.
      destruct (decide (rp = region_position c)) as [->|Hne].
      * rewrite lookup_insert_eq. intros [= <-]. rewrite Hempty.
        split; [done|]. rewrite <- Hempty. cbn. intros k ch.
        by rewrite lookup_empty.
      * rewrite lookup_insert_ne by done. apply Hst.
Qed.

(** X10: however the loop over the converters ends, every RegionConverter
    of the dictionary is the one built for its key, so its file is the
    region file of the key, and every chunk it holds comes from a converter
    whose region position is the key and sits at the slot of its
    coordinates. *)
Theorem convert_chunks_groups_by_region world_out
    (cs : list ChunkConverter) err :
  forall rp rc,
    regions (convert_chunks world_out cs err).2 !! rp = Some rc ->
    RegionConverter.init world_out rp = Ok (emptied rc) /\
    forall k ch,
      EmptyRegion.chunks (RegionConverter.region rc) !! k = Some ch ->
      k = chunk_z ch `mod` 32 * 32 + chunk_x ch `mod` 32 /\
      exists c, c ∈ cs /\ region_position c = rp /\
        chunk_x ch = region_x c /\ chunk_z ch = region_z c.
Proof.
  unfold convert_chunks.
  apply (for_each_invariant_in (fun st => grouped_well world_out cs st)).
  - intros c st Hc Hst. by apply convert_one_grouped_well.
  - intros rp rc. cbn. by rewrite lookup_empty.
Qed.

(** A converter of a valid dimension whose entry has the layout under
    which [place_blocks] returns. *)
Local Abbreviation convertible c :=
  ((dimension c = OVERWORLD \/ dimension c = NETHER \/ dimension c = END) /\
   exists entry0,
     entry c = Some entry0 /\
     (length (Entry.blocks entry0) <= 16)%nat /\
     Forall (fun subchunk => 0x1800 <= Z.of_nat (length subchunk))
       (Entry.blocks entry0)).

(** The chunk the dictionary holds for a region and a slot. *)
Local Abbreviation chunk_at st rp k :=
  (regions st !! rp ≫= fun rc =>
     EmptyRegion.chunks (RegionConverter.region rc) !! k).

Lemma place_blocks_chunk_any_stderr self entry0 err err' :
  entry self = Some entry0 ->
  (length (Entry.blocks entry0) <= 16)%nat ->
  Forall (fun subchunk => 0x1800 <= Z.of_nat (length subchunk))
    (Entry.blocks entry0) ->
  chunk (place_blocks self err).2 = chunk (place_blocks self err').2.
Proof.
  intros Hentry Hcount Hall.
  destruct (place_blocks_placed_well self err) as (Hx & Hz & _).
  destruct (place_blocks_placed_well self err') as (Hx' & Hz' & _).
  destruct (place_blocks_outcome self entry0 err Hentry Hcount Hall)
    as (s & Hrun & _ & Hin & Hout).
  destruct (place_blocks_outcome self entry0 err' Hentry Hcount Hall)
    as (s' & Hrun' & _ & Hin' & Hout').
  rewrite Hrun in *. rewrite Hrun' in *. cbn [snd] in *.
  destruct (chunk s) as [x1 z1 m1], (chunk s') as [x2 z2 m2]. cbn in *.
  subst. f_equal. apply map_eq. intros cell.
  destruct (decide (cell ∈ visited_cells entry0)) as [Hcell|Hcell].
  - rewrite <- traversal_cells in Hcell.
    apply list_elem_of_fmap in Hcell as ([[[sy sc] p] b] & -> & Hc).
    specialize (Hin _ Hc). specialize (Hin' _ Hc). cbn [fst snd] in *.
    by rewrite Hin, Hin'.
  - by rewrite Hout, Hout'.
Qed.

Lemma RegionConverter_init_valid world_out x z d :
  d = OVERWORLD \/ d = NETHER \/ d = END ->
  exists rc, RegionConverter.init world_out (x, z, d) = Ok rc.
Proof.
  unfold RegionConverter.init. intros [-> | [-> | ->]]; cbn; by eexists.
Qed.

Lemma slot_of_inj x z x' z' :
  x `div` 32 = x' `div` 32 -> z `div` 32 = z' `div` 32 ->
  slot_of x z = slot_of x' z' -> x = x' /\ z = z'.
Proof. Z.to_euclidean_division_equations. lia. Qed.

Lemma convert_one_effect world_out (cs : list ChunkConverter) c st :
  grouped_well world_out cs st ->
  convertible c ->
  exists st',
    convert_one world_out c st = (Ok tt, st') /\
    chunk_at st' (region_position c) (slot_of (region_x c) (region_z c))
      = Some (chunk (place_blocks c []).2) /\
    forall rp k,
      (rp, k) <> (region_position c, slot_of (region_x c) (region_z c)) ->
      chunk_at st' rp k = chunk_at st rp k.
Proof.
  intros Hst (Hdim & entry0 & Hentry & Hcount & Hall).
  unfold convert_one, convert_chunk.
  rewrite (place_blocks_chunk_any_stderr c entry0 [] (convert_stderr st))
    by done.
  destruct (place_blocks_placed_well c (convert_stderr st)) as (Hx & Hz & _).
  destruct (place_blocks_returns c entry0 (convert_stderr st))
    as [s Hrun]; [done..|].
  rewrite Hrun in *. cbn [snd] in *.
  assert (forall rc (regions' : gmap Position RegionConverter.t),
    EmptyRegion.x (RegionConverter.region rc) = region_x c `div` 32 ->
    EmptyRegion.z (RegionConverter.region rc) = region_z c `div` 32 ->
    exists rc',
      RegionConverter.add_chunk rc (chunk s) = Ok rc' /\
      EmptyRegion.chunks (RegionConverter.region rc') =
        <[slot_of (region_x c) (region_z c) := chunk s]>
          (EmptyRegion.chunks (RegionConverter.region rc))) as Hadd.
  { intros rc regions' Hrx Hrz.
    destruct (RegionConverter_add_chunk_inside rc (chunk s))
      as (rc' & Hrc' & _ & Hnew); [by rewrite Hx|by rewrite Hz|].
    exists rc'. split; [done|]. by rewrite Hnew, Hx, Hz. }
  destruct (regions st !! region_position c) as [rc|] eqn:Hfound; cbn zeta.
  - destruct (Hst _ _ Hfound) as [Hinit _].
    apply RegionConverter_init_inv in Hinit as (_ & Hrx & Hrz).
    destruct (Hadd rc (regions st) Hrx Hrz) as (rc' & -> & Hnew).
    eexists. split; [done|]. cbn. split.
    + by rewrite lookup_insert_eq; cbn; rewrite Hnew, lookup_insert_eq.
    + intros rp k Hne. destruct (decide (rp = region_position c)) as [->|Hrp].
      * rewrite lookup_insert_eq, Hfound. cbn. rewrite Hnew.
        rewrite lookup_insert_ne; [done|]. congruence.
      * by rewrite lookup_insert_ne.
  - destruct (RegionConverter_init_valid world_out
                (region_x c `div` 32) (region_z c `div` 32) (dimension c) Hdim)
      as [rc0 Hinit].
    change (region_x c `div` 32, region_z c `div` 32, dimension c)
      with (region_position c) in Hinit.
    rewrite Hinit. unfold mbind, Result_bind.
    pose proof Hinit as Hinv.
    apply RegionConverter_init_inv in Hinv as (Hempty & Hrx & Hrz).
    destruct (Hadd rc0 (<[region_position c := rc0]> (regions st)) Hrx Hrz)
      as (rc' & -> & Hnew).
    eexists. split; [done|]. cbn. split.
    + rewrite lookup_insert_eq. cbn. by rewrite Hnew, lookup_insert_eq.
    + intros rp k Hne. destruct (decide (rp = region_position c)) as [->|Hrp].
      * rewrite lookup_insert_eq, Hfound. cbn. rewrite Hnew.
        rewrite lookup_insert_ne by congruence.
        rewrite <- Hempty. cbn. apply lookup_empty.
      * by rewrite !lookup_insert_ne.
Qed.

Lemma convert_all_effect world_out (cs l : list ChunkConverter) : forall st,
  l ⊆ cs ->
  grouped_well world_out cs st ->
  Forall (fun c => convertible c) l ->
  exists st',
    for_each l (convert_one world_out) st = (Ok tt, st') /\
    grouped_well world_out cs st' /\
    forall rp k,
      Forall (fun c =>
        (region_position c, slot_of (region_x c) (region_z c)) <> (rp, k)) l ->
      chunk_at st' rp k = chunk_at st rp k.
Proof.
  induction l as [|c l IH]; intros st Hsub Hst Hall.
  - exists st. by split_and!.
  - inversion Hall as [|? ? Hc Hl]; subst.
    destruct (convert_one_effect world_out cs c st Hst Hc)
      as (st1 & Hrun1 & _ & Hframe1).
    assert (grouped_well world_out cs st1) as Hst1.
    { pose proof (convert_one_grouped_well world_out cs c st) as Hkeep.
      rewrite Hrun1 in Hkeep. apply Hkeep; [|done]. apply Hsub. left. }
    destruct (IH st1) as (st2 & Hrun2 & Hst2 & Hframe2); [|done|done|].
    { intros c' Hc'. apply Hsub. by right. }
    exists st2. split_and!; [|done|].
    + cbn [for_each]. unfold mbind, Stateful_bind. by rewrite Hrun1.
    + intros rp k Hrk. inversion Hrk as [|? ? Hhead Htail]; subst.
      rewrite (Hframe2 _ _ Htail). apply Hframe1. congruence.
Qed.

(** X11: when every converter has a dimension among 0, 1 and 2 and an entry
    of at most 16 subchunks of at least 0x1800 bytes, the loop returns, and
    a converter that no later converter shares its chunk coordinates and
    dimension with has its chunk in the RegionConverter of its region
    position, at the slot of its coordinates: no chunk of other coordinates
    displaces it. *)
Theorem convert_chunks_keeps_last_chunk world_out
    (before after : list ChunkConverter) c err :
  Forall (fun c' =>
    (dimension c' = OVERWORLD \/ dimension c' = NETHER \/ dimension c' = END)
    /\ exists entry0,
         entry c' = Some entry0 /\
         (length (Entry.blocks entry0) <= 16)%nat /\
         Forall (fun subchunk => 0x1800 <= Z.of_nat (length subchunk))
           (Entry.blocks entry0))
    (before ++ c :: after) ->
  Forall (fun c' =>
    (region_x c', region_z c', dimension c')
      <> (region_x c, region_z c, dimension c)) after ->
  exists st rc,
    convert_chunks world_out (before ++ c :: after) err = (Ok tt, st) /\
    regions st !! region_position c = Some rc /\
    EmptyRegion.chunks (RegionConverter.region rc)
      !! (region_z c `mod` 32 * 32 + region_x c `mod` 32)
      = Some (chunk (place_blocks c []).2).
Proof.
  intros Hall Hlater. unfold convert_chunks.
  set (cs := before ++ c :: after) in *.
  apply Forall_app in Hall as [Hbefore Hrest].
  inversion Hrest as [|? ? Hc Hafter]; subst.
  destruct (convert_all_effect world_out cs before
              {| regions := ∅; convert_stderr := err |})
    as (st1 & Hrun1 & Hst1 & _); [| |done|].
  { intros c' Hc'. apply elem_of_app. by left. }
  { intros rp rc. cbn. by rewrite lookup_empty. }
  destruct (convert_one_effect world_out cs c st1 Hst1 Hc)
    as (st2 & Hrun2 & Hat2 & _).
  assert (grouped_well world_out cs st2) as Hst2.
  { pose proof (convert_one_grouped_well world_out cs c st1) as Hkeep.
    rewrite Hrun2 in Hkeep. apply Hkeep; [|done].
    apply elem_of_app. right. left. }
  destruct (convert_all_effect world_out cs after st2)
    as (st3 & Hrun3 & _ & Hframe3); [|done|done|].
  { intros c' Hc'. apply elem_of_app. right. by right. }
  rewrite <- Hframe3 in Hat2.
  - destruct (regions st3 !! region_position c) as [rc|] eqn:Hrc;
      [|discriminate].
    exists st3, rc. split; [|done].
    subst cs. rewrite for_each_app, Hrun1. cbn [for_each].
    unfold mbind, Stateful_bind. by rewrite Hrun2.
  - eapply Forall_impl; [exact Hlater|]. cbn. intros c' Hne [= Hx Hz Hd Hslot].
    apply Hne. apply slot_of_inj in Hslot as [-> ->]; [|done..].
    by rewrite Hd.
Qed.

Lemma convert_chunks_groups_by_region_witness :
  exists rc,
    regions (convert_chunks ["out"] [example_stone_converter] []).2
      !! (0, 0, OVERWORLD) = Some rc /\
    RegionConverter.init ["out"] (0, 0, OVERWORLD) = Ok (emptied rc).
Proof.
  assert (is_Some
    (regions (convert_chunks ["out"] [example_stone_converter] []).2
       !! (0, 0, OVERWORLD))) as [rc Hrc].
  { vm_compute. eauto. }
  exists rc. split; [exact Hrc|].
  apply (convert_chunks_groups_by_region
           ["out"] [example_stone_converter] [] _ _ Hrc).
Defined.

Lemma example_stone_layout :
  Forall (fun subchunk => 0x1800 <= Z.of_nat (length subchunk))
    (Entry.blocks example_stone_entry).
Proof.
  constructor; [|constructor]. cbn [length example_stone_subchunk].
  rewrite length_replicate. lia.
Qed.

Lemma convert_chunks_keeps_last_chunk_witness :
  exists st rc,
    convert_chunks ["out"]
      ([] ++ example_stone_converter :: [example_neighbour_converter]) []
      = (Ok tt, st) /\
    regions st !! region_position example_stone_converter = Some rc /\
    EmptyRegion.chunks (RegionConverter.region rc)
      !! (region_z example_stone_converter `mod` 32 * 32
          + region_x example_stone_converter `mod` 32)
      = Some (chunk (place_blocks example_stone_converter []).2).
Proof.
  apply (convert_chunks_keeps_last_chunk ["out"] []
           [example_neighbour_converter] example_stone_converter []).
  - repeat constructor; exists example_stone_entry;
      (split; [reflexivity|]); (split; [cbn; lia|]);
      apply example_stone_layout.
  - constructor; [|constructor]. discriminate.
Defined.

(** ** The table parse_block_json builds *)

Lemma parse_blocks_sources items : forall table result,
  parse_blocks items table = Ok result ->
  (forall block_id block,
     result !! block_id = Some block ->
     table !! block_id = Some block \/
     exists numerical_id new,
       (numerical_id, new) ∈ items /\
       parse_block numerical_id new = Ok (block_id, block)) /\
  (forall block_id, is_Some (table !! block_id) ->
     is_Some (result !! block_id)) /\
  (forall numerical_id new,
     (numerical_id, new) ∈ items ->
     exists block_id block,
       parse_block numerical_id new = Ok (block_id, block) /\
       is_Some (result !! block_id)).
Proof.
  induction items as [|[k v] items IH]; intros table result.
  - intros [= <-]. split_and!; [by left|done|by intros ? ? ?%elem_of_nil].
  - cbn [parse_blocks].
    destruct (parse_block k v) as [[id0 b0]|] eqn:Hitem; run_result;
      [|discriminate].
    intros Hrun. destruct (IH _ _ Hrun) as (Hfrom & Hkeep & Hitems).
    split_and!.
    + intros block_id block Hres.
      destruct (Hfrom _ _ Hres) as [Htable|(k' & v' & Hin & Hparse)].
      * destruct (decide (id0 = block_id)) as [->|Hne].
        -- rewrite lookup_insert_eq in Htable. injection Htable as ->.
           right. exists k, v. split; [left|done].
        -- rewrite lookup_insert_ne in Htable by done. by left.
      * right. exists k', v'. split; [by right|done].
    + intros block_id Hsome. apply Hkeep.
      destruct (decide (id0 = block_id)) as [->|Hne].
      * rewrite lookup_insert_eq. eauto.
      * by rewrite lookup_insert_ne.
    + intros k' v' [[= -> ->]|Hin]%elem_of_cons.
      * exists id0, b0. split; [done|]. apply Hkeep.
        rewrite lookup_insert_eq. eauto.
      * by apply Hitems.
Qed.

(** X12: when parse_block_json returns a table, every block of the table
    is what the loop body makes of one of the items, under the block id of
    that item, and every item is parsed and has its block id in the
    table. *)
Theorem parse_block_json_table_is_its_items raw_blocks result :
  parse_block_json raw_blocks = Ok result ->
  (forall block_id block,
     result !! block_id = Some block ->
     exists numerical_id new,
       (numerical_id, new) ∈ raw_blocks /\
       parse_block numerical_id new = Ok (block_id, block)) /\
  (forall numerical_id new,
     (numerical_id, new) ∈ raw_blocks ->
     exists block_id block,
       parse_block numerical_id new = Ok (block_id, block) /\
       is_Some (result !! block_id)).
Proof.
  intros Hrun. destruct (parse_blocks_sources _ _ _ Hrun)
    as (Hfrom & _ & Hitems).
  split; [|done]. intros block_id block Hres.
  destruct (Hfrom _ _ Hres) as [Hempty|Hitem]; [|done].
  by rewrite lookup_empty in Hempty.
Qed.

Lemma parse_block_json_table_is_its_items_witness :
  (exists numerical_id new,
     (numerical_id, new)
       ∈ [("1:0", "minecraft:stone"); ("5:2", "minecraft:wood[variant=birch]")]
     /\ parse_block numerical_id new =
          Ok ((1, 0), {| namespace := "minecraft"; name := "stone";
                         properties := ∅ |})) /\
  (exists block_id block,
     parse_block "5:2" "minecraft:wood[variant=birch]" = Ok (block_id, block)
     /\ is_Some (example_table !! block_id)).
Proof.
  destruct (parse_block_json_table_is_its_items
              [("1:0", "minecraft:stone");
               ("5:2", "minecraft:wood[variant=birch]")] example_table)
    as [Hfrom Hitems].
  - vm_compute. reflexivity.
  - split.
    + apply Hfrom. reflexivity.
    + apply Hitems. apply list_elem_of_In. right. left. reflexivity.
Defined.

(** ** What parse_block reads, and what it rejects *)

Lemma split_not_nil sep s : split sep s <> [].
Proof.
  destruct s as [|c s]; [done|]. cbn.
  destruct (Ascii.eqb c sep); [done|]. by destruct (split sep s).
Qed.

Lemma split_one sep s : forall b, split sep s = [b] -> s = b.
Proof.
  induction s as [|c s IH]; intros b; cbn.
  - by intros [= <-].
  - destruct (Ascii.eqb c sep).
    + intros [= _ Hnil]. by apply split_not_nil in Hnil.
    + destruct (split sep s) as [|part parts] eqn:Hs;
        [by apply split_not_nil in Hs|].
      intros [= <- ->]. by rewrite (IH part).
Qed.

Lemma split_two sep s : forall a b,
  split sep s = [a; b] -> s = a +:+ String sep b.
Proof.
  induction s as [|c s IH]; intros a b; cbn; [done|].
  destruct (Ascii.eqb_spec c sep) as [->|Hne].
  - intros [= <- Hrest]. by rewrite (split_one _ _ _ Hrest).
  - destruct (split sep s) as [|part parts] eqn:Hs; [done|].
    intros [= <- ->]. by rewrite (IH part b).
Qed.

Lemma unpack2_split sep s a b :
  unpack2 (split sep s) = Ok (a, b) -> s = a +:+ String sep b.
Proof.
  destruct (split sep s) as [|a' [|b' [|c' parts]]] eqn:Hsplit; try done.
  intros [= -> ->]. by apply split_two.
Qed.

Lemma span_no_bracket_app s : forall run rest,
  span_no_bracket s = (run, rest) -> s = run +:+ rest.
Proof.
  induction s as [|c s IH]; intros run rest; cbn.
  - by intros [= <- <-].
  - destruct (is_bracket c); [by intros [= <- <-]|].
    destruct (span_no_bracket s) as [run' rest'].
    intros [= <- <-]. cbn. by rewrite (IH run' rest').
Qed.

Lemma append_empty_r s : s +:+ "" = s.
Proof.
  induction s as [|c s IH]; [done|].
  change (String c (s +:+ "") = String c s). by rewrite IH.
Qed.

Lemma block_json_match_shape new group1 group2 :
  block_json_match new = Some (group1, group2) ->
  match group2 with
  | None => new = group1
  | Some props =>
      new = group1 +:+ "[" +:+ props +:+ "]" \/
      new = group1 +:+ "[" +:+ props +:+ String "]" (String "010" "")
  end.
Proof.
  unfold block_json_match.
  destruct (span_no_bracket new) as [run rest] eqn:Hrun.
  apply span_no_bracket_app in Hrun as ->.
  destruct run as [|c run]; [done|].
  destruct rest as [|r rest].
  { intros [= <- <-]. apply append_empty_r. }
  destruct (Ascii.eqb_spec r "[") as [->|Hr].
  2:{ by destruct r as [[] [] [] [] [] [] [] []]. }
  destruct (span_no_bracket rest) as [props tail] eqn:Hprops.
  apply span_no_bracket_app in Hprops as ->.
  destruct tail as [|t tail]; [done|].
  destruct (Ascii.eqb_spec t "]") as [->|Ht].
  2:{ by destruct t as [[] [] [] [] [] [] [] []]. }
  destruct tail as [|n tail]; [intros [= <- <-]; by left|].
  destruct (Ascii.eqb_spec n "010") as [->|Hn].
  2:{ by destruct n as [[] [] [] [] [] [] [] []]. }
  destruct tail; [|done]. intros [= <- <-]. by right.
Qed.

(** X13: what parse_block returns can be read back from the item: the key
    is the two texts int turns into the block id, joined by a colon, and
    the value is the namespace, a colon and the name of the block, followed
    by nothing or by a bracketed text that may end in a newline; the
    properties are those of the items of that text, and there are none
    when it is absent or empty. *)
Theorem parse_block_reads_back numerical_id new block_id block :
  parse_block numerical_id new = Ok (block_id, block) ->
  (exists block_str data_str,
     numerical_id = block_str +:+ ":" +:+ data_str /\
     int block_str = Ok block_id.1 /\ int data_str = Ok block_id.2) /\
  (new = namespace block +:+ ":" +:+ name block /\ properties block = ∅
   \/ exists props,
        (new = (namespace block +:+ ":" +:+ name block)
                 +:+ "[" +:+ props +:+ "]" \/
         new = (namespace block +:+ ":" +:+ name block)
                 +:+ "[" +:+ props +:+ String "]" (String "010" "")) /\
        if decide (props = "") then properties block = ∅
        else dict_of_items (split "," props) ∅ = Ok (properties block)).
Proof.
  unfold parse_block.
  destruct (unpack2 (split ":" numerical_id)) as [[block_str data_str]|]
    eqn:Hkey; run_result; [|discriminate].
  apply unpack2_split in Hkey as ->.
  destruct (int block_str) as [b|] eqn:Hb; run_result; [|discriminate].
  destruct (int data_str) as [d|] eqn:Hd; run_result; [|discriminate].
  destruct (block_json_match new) as [[group1 group2]|] eqn:Hmatch;
    run_result; [|discriminate].
  apply block_json_match_shape in Hmatch.
  match goal with
  | |- match ?props with _ => _ end = _ -> _ =>
      destruct props as [nbt_data|] eqn:Hprops; [|discriminate]
  end.
  destruct (unpack2 (split ":" group1)) as [[namespace0 name0]|] eqn:Hname;
    run_result; [|discriminate].
  apply unpack2_split in Hname as ->.
  intros [= <- <-]. cbn. split; [by exists block_str, data_str|].
  destruct group2 as [props|].
  - right. exists props. split; [done|].
    destruct props as [|c props]; cbn; [by injection Hprops as <-|done].
  - left. split; [done|]. by injection Hprops as <-.
Qed.

Lemma parse_block_reads_back_witness :
  exists block_str data_str,
    "5:2" = block_str +:+ ":" +:+ data_str /\
    int block_str = Ok 5 /\ int data_str = Ok 2.
Proof.
  destruct (parse_block_reads_back "5:2" "minecraft:wood[variant=birch]"
              (5, 2)
              {| namespace := "minecraft"; name := "wood";
                 properties := {[ "variant" := "birch" ]} |})
    as [Hkey _].
  - vm_compute. reflexivity.
  - exact Hkey.
Defined.

(** No bracket among the characters of a string. *)
Local Abbreviation bracket_free s :=
  (Forall (fun c => is_bracket c = false) (list_ascii_of_string s)).

Lemma span_no_bracket_run run : forall rest,
  bracket_free run ->
  match rest with
  | EmptyString => True
  | String c _ => is_bracket c = true
  end ->
  span_no_bracket (run +:+ rest) = (run, rest).
Proof.
  induction run as [|c run IH]; intros rest Hrun Hrest.
  - destruct rest as [|r rest]; [done|]. cbn in *.
    change ("" +:+ String r rest) with (String r rest). cbn. by rewrite Hrest.
  - inversion Hrun as [|? ? Hc Hfree]; subst.
    change (String c run +:+ rest) with (String c (run +:+ rest)).
    cbn. by rewrite Hc, (IH rest Hfree Hrest).
Qed.

(** X14: empty brackets after a name make no difference, as the comment in
    the source says of the empty string: for a text without brackets,
    parse_block gives the same result, block or exception, whether it is
    followed by [] or not. *)
Theorem parse_block_empty_brackets numerical_id new :
  bracket_free new ->
  parse_block numerical_id (new +:+ "[]") = parse_block numerical_id new.
Proof.
  intros Hfree. unfold parse_block, block_json_match.
  rewrite (span_no_bracket_run new "[]" Hfree eq_refl).
  assert (span_no_bracket new = (new, "")) as ->.
  { rewrite <- (append_empty_r new) at 1.
    by apply span_no_bracket_run. }
  destruct (unpack2 (split ":" numerical_id)) as [[block_str data_str]|];
    [|done].
  unfold mbind, Result_bind.
  destruct (int block_str); [|done]. destruct (int data_str); [|done].
  by destruct new.
Qed.

Lemma parse_block_empty_brackets_witness :
  parse_block "1:0" ("minecraft:stone" +:+ "[]")
    = parse_block "1:0" "minecraft:stone".
Proof.
  apply parse_block_empty_brackets. repeat constructor.
Defined.

Lemma dict_of_items_ok items : forall d d',
  dict_of_items items d = Ok d' ->
  Forall (fun item => length (split "=" item) = 2%nat) items.
Proof.
  induction items as [|item items IH]; intros d d'; [constructor|].
  cbn [dict_of_items].
  destruct (split "=" item) as [|a [|b [|c parts]]] eqn:Hsplit; try done.
  cbn. intros Hrest. constructor; [by rewrite Hsplit|].
  by apply (IH _ _ Hrest).
Qed.

(** X15: a value the pattern matches still makes parse_block_json raise
    ValueError when its name part does not split at colons into exactly two
    parts, or when its bracketed text is not empty and one of its items,
    separated by commas, does not split at the equals sign into exactly two
    parts. *)
Theorem parse_block_json_rejects_bad_descriptor
    raw_blocks numerical_id new group1 group2 :
  (numerical_id, new) ∈ raw_blocks ->
  block_json_match new = Some (group1, group2) ->
  (length (split ":" group1) <> 2%nat \/
   exists props item,
     group2 = Some props /\ props <> "" /\
     item ∈ split "," props /\ length (split "=" item) <> 2%nat) ->
  parse_block_json raw_blocks = Raise ValueError.
Proof.
  intros Hin Hmatch Hbad. apply (parse_blocks_bad_item _ _ _ _ Hin).
  destruct (parse_block numerical_id new) as [[block_id block]|e] eqn:Hrun;
    [|f_equal; by apply parse_block_raises in Hrun].
  exfalso. revert Hrun. unfold parse_block.
  destruct (unpack2 (split ":" numerical_id)) as [[block_str data_str]|];
    [|done].
  unfold mbind, Result_bind.
  destruct (int block_str); [|done]. destruct (int data_str); [|done].
  rewrite Hmatch. cbn [or_raise].
  destruct Hbad as [Hname|(props & item & -> & Hprops & Hitem & Hsplit)].
  - rewrite (unpack2_length _ Hname). by destruct group2 as [[|c s]|];
      [| destruct (dict_of_items _ _)|].
  - destruct props as [|c props]; [done|].
    destruct (dict_of_items (split "," (String c props)) ∅) as [d|] eqn:Hd;
      [|done].
    apply dict_of_items_ok in Hd. rewrite Forall_forall in Hd.
    by apply Hd in Hitem.
Qed.

Lemma parse_block_json_rejects_bad_descriptor_witness :
  parse_block_json [("1:0", "stone")] = Raise ValueError /\
  parse_block_json [("5:2", "minecraft:wood[variant=birch,axis]")]
    = Raise ValueError.
Proof.
  split.
  - apply (parse_block_json_rejects_bad_descriptor _ "1:0" "stone"
             "stone" None).
    + left.
    + reflexivity.
    + left. vm_compute. lia.
  - apply (parse_block_json_rejects_bad_descriptor _ "5:2"
             "minecraft:wood[variant=birch,axis]" "minecraft:wood"
             (Some "variant=birch,axis")).
    + left.
    + reflexivity.
    + right. exists "variant=birch,axis", "axis". split; [reflexivity|].
      split; [discriminate|]. split.
      * apply list_elem_of_In. right. left. reflexivity.
      * vm_compute. lia.
Defined.

(** ** Keys in decimal *)







(** No occurrence of the character [c] in a string. *)
Local Abbreviation free_of c s :=
  (Forall (fun c' : ascii => c' <> c) (list_ascii_of_string s)).





(** ** Where the conversion loop stops *)

(** X17: the loop stops at the first converter that fails.  After
    converters it can convert, a converter without an entry, as convert
    builds for a True entry of world.entries, makes it raise AttributeError,
    and one whose dimension is not 0, 1 or 2 makes it raise ValueError; the
    dictionary then holds what the converters before it put there, and none
    of the converters after it is converted. *)
Theorem convert_chunks_stops_at_first_failure world_out
    (before after : list ChunkConverter) c err :
  Forall (fun c' =>
    (dimension c' = OVERWORLD \/ dimension c' = NETHER \/ dimension c' = END)
    /\ exists entry0,
         entry c' = Some entry0 /\
         (length (Entry.blocks entry0) <= 16)%nat /\
         Forall (fun subchunk => 0x1800 <= Z.of_nat (length subchunk))
           (Entry.blocks entry0))
    before ->
  (entry c = None ->
   (convert_chunks world_out (before ++ c :: after) err).1
     = Raise AttributeError /\
   regions (convert_chunks world_out (before ++ c :: after) err).2
     = regions (convert_chunks world_out before err).2) /\
  (dimension c <> OVERWORLD -> dimension c <> NETHER -> dimension c <> END ->
   (exists entry0,
      entry c = Some entry0 /\
      (length (Entry.blocks entry0) <= 16)%nat /\
      Forall (fun subchunk => 0x1800 <= Z.of_nat (length subchunk))
        (Entry.blocks entry0)) ->
   (convert_chunks world_out (before ++ c :: after) err).1
     = Raise ValueError /\
   regions (convert_chunks world_out (before ++ c :: after) err).2
     = regions (convert_chunks world_out before err).2).
Proof.
  intros Hbefore. unfold convert_chunks.
  set (cs := before ++ c :: after).
  destruct (convert_all_effect world_out cs before
              {| regions := ∅; convert_stderr := err |})
    as (st1 & Hrun1 & Hst1 & _); [| |done|].
  { intros c' Hc'. apply elem_of_app. by left. }
  { intros rp rc. cbn. by rewrite lookup_empty. }
  subst cs. rewrite for_each_app, Hrun1. cbn [for_each].
  unfold mbind, Stateful_bind. split.
  - intros Hentry. unfold convert_one, convert_chunk, place_blocks.
    by rewrite Hentry.
  - intros H0 H1 H2 (entry0 & Hentry & Hcount & Hall).
    unfold convert_one, convert_chunk.
    destruct (place_blocks_returns c entry0 (convert_stderr st1))
      as [s ->]; [done..|].
    destruct (regions st1 !! region_position c) as [rc|] eqn:Hfound.
    + destruct (Hst1 _ _ Hfound) as [Hinit _]. exfalso. revert Hinit.
      unfold RegionConverter.init, region_position.
      rewrite (proj2 (Z.eqb_neq _ _) H0), (proj2 (Z.eqb_neq _ _) H1),
        (proj2 (Z.eqb_neq _ _) H2). done.
    + cbn zeta. unfold RegionConverter.init, region_position.
      rewrite (proj2 (Z.eqb_neq _ _) H0), (proj2 (Z.eqb_neq _ _) H1),
        (proj2 (Z.eqb_neq _ _) H2). done.
Qed.

Lemma convert_chunks_stops_at_first_failure_witness :
  ((convert_chunks ["out"]
      ([example_stone_converter]
         ++ ChunkConverter_init (7, 7, OVERWORLD) None ∅ true
         :: [example_neighbour_converter]) []).1
     = Raise AttributeError /\
   regions (convert_chunks ["out"]
      ([example_stone_converter]
         ++ ChunkConverter_init (7, 7, OVERWORLD) None ∅ true
         :: [example_neighbour_converter]) []).2
     = regions (convert_chunks ["out"] [example_stone_converter] []).2) /\
  (convert_chunks ["out"]
     ([] ++ ChunkConverter_init (5, 5, 3) (Some example_stone_entry) ∅ false
         :: [example_neighbour_converter]) []).1
    = Raise ValueError.
Proof.
  split.
  - apply (convert_chunks_stops_at_first_failure ["out"]
             [example_stone_converter] [example_neighbour_converter]
             (ChunkConverter_init (7, 7, OVERWORLD) None ∅ true) []).
    + repeat constructor; exists example_stone_entry;
        (split; [reflexivity|]); (split; [cbn; lia|]);
        apply example_stone_layout.
    + reflexivity.
  - apply (convert_chunks_stops_at_first_failure ["out"] []
             [example_neighbour_converter]
             (ChunkConverter_init (5, 5, 3) (Some example_stone_entry) ∅ false)
             []).
    + constructor.
    + discriminate.
    + discriminate.
    + discriminate.
    + exists example_stone_entry. split; [reflexivity|].
      split; [cbn; lia|]. apply example_stone_layout.
Defined.
